(** * Pulsar asynchronous client core: connection pools and HTTP plugins

    A shallow embedding of
    - [pulsar/async/transports/clients.py]: [Request], [ConnectionPool],
      [Client], [SingleClient];
    - [pulsar/apps/http/plugins.py]: [request_again], [_do_redirect],
      [handle_101], [Tunneling].

    Python objects are referred to by identity, so connections, pools and
    protocol consumers live in a store ([World]) and are named by an
    identifier; methods that mutate them are computations in a state and
    exception monad [M].  A raised exception keeps the mutations performed
    before the [raise], as in Python. *)

From Stdlib Require Import ZArith List.
From stdpp Require Import gmap strings list fin_maps.

Local Open Scope Z_scope.

(** ** Python values shared by the two modules *)

Module Py.

(** Exceptions that the embedded code can raise. *)
Inductive exn :=
| KeyError
| AttributeError (attr : string)
| NameError (name : string)
| TypeError
| ValueError
| TooManyConnections
| TooManyRedirects (response : nat).

Inductive result (A : Type) :=
| Ok (a : A)
| Raise (e : exn).
Arguments Ok {A} a.
Arguments Raise {A} e.

(** State and exception monad over a store [S]. *)
Definition M (S A : Type) : Type := S -> S * result A.

Definition ret {S A} (a : A) : M S A := fun s => (s, Ok a).
Definition raise {S A} (e : exn) : M S A := fun s => (s, Raise e).
Definition bind {S A B} (c : M S A) (k : A -> M S B) : M S B :=
  fun s => match c s with
           | (s', Ok a) => k a s'
           | (s', Raise e) => (s', Raise e)
           end.
Definition get {S} : M S S := fun s => (s, Ok s).
Definition modify {S} (f : S -> S) : M S unit := fun s => (f s, Ok tt).

(** [try: c  except <catches>: h  else: els]: the [else] suite runs when
    the body raised nothing, outside the reach of the handler. *)
Definition try_except_else {S A B} (c : M S A) (catches : exn -> bool)
           (h : M S B) (els : A -> M S B) : M S B :=
  fun s => match c s with
           | (s', Ok a) => els a s'
           | (s', Raise e) => if catches e then h s' else (s', Raise e)
           end.

(** [try: c  except Exception as e: h e]: every exception modelled here
    derives from [Exception]. *)
Definition try_except_Exception {S A} (c : M S A) (h : exn -> M S A) : M S A :=
  fun s => match c s with
           | (s', Ok a) => (s', Ok a)
           | (s', Raise e) => h e s'
           end.

(** [for x in l: body x] *)
Fixpoint for_each {S A} (l : list A) (body : A -> M S unit) : M S unit :=
  match l with
  | [] => ret tt
  | x :: l' => bind (body x) (fun _ => for_each l' body)
  end.

(** Weakest precondition: [Q] holds of the value and store when [c]
    returns, [E] of the exception and store when it raises. *)
Definition wp {S A} (c : M S A) (Q : A -> S -> Prop) (E : exn -> S -> Prop) (s : S) : Prop :=
  match c s with
  | (s', Ok a) => Q a s'
  | (s', Raise e) => E e s'
  end.

End Py.

Import Py.

Notation "x <- c1 ;; c2" := (bind c1 (fun x => c2))
  (at level 100, c1 at next level, right associativity).
Notation "c1 ;;; c2" := (bind c1 (fun _ => c2))
  (at level 100, right associativity).

(** ** clients.py *)

Module Clients.

Definition conn_id := nat.
Definition pool_id := nat.
Definition consumer_id := nat.

(** The objects a connection's [producer] attribute can refer to. *)
Inductive obj :=
| ObjClient
| ObjPool (p : pool_id).

Global Instance obj_eq_dec : EqDecision obj := ltac:(solve_decision).

(** [Request.key]: the pair [(address, timeout)]. *)
Definition address := string.
Definition key : Type := address * Z.

Record Request := mkRequest {
  req_address : address;
  req_timeout : Z }.

Definition Request_key (r : Request) : key := (req_address r, req_timeout r).

(** Handlers that [bind_event] can attach to a connection. *)
Inductive handler :=
| H_release_response (p : pool_id)
| H_try_reconnect (p : pool_id) (c : conn_id).

(** Consumer factories installed on a connection. *)
Inductive factory :=
| ClientConsumerFactory
| WebSocketFactory (handshake : consumer_id).

Record Connection := mkConnection {
  conn_producer : obj;
  conn_closed : bool;
  conn_stale : bool;                       (* what [is_stale()] answers *)
  conn_current_consumer : option consumer_id;
  conn_consumer_factory : factory;
  conn_post_request : list handler;
  conn_connection_lost : list handler }.

(** A [ProtocolConsumer].  [cons_release_connection] is [None] while the
    attribute has never been assigned ([getattr(..., True)] then answers
    [True]). *)
Record Consumer := mkConsumer {
  cons_connection : option conn_id;
  cons_release_connection : option bool;
  cons_status_code : Z;
  cons_finished : bool;
  cons_current_request : option Request }.

Record Pool := mkPool {
  pool_address : address;
  pool_timeout : Z;
  pool_max_connections : Z;
  _available_connections : gset conn_id;
  _concurrent_connections : gset conn_id }.

(** *** Client.get_event_loop *)

(** The loops a client can use: the ambient one, which the global
    [get_event_loop()] returns, or one of those [new_event_loop] has
    built. *)
Inductive event_loop :=
| ambient_loop
| own_loop (n : nat).

(** The attributes of the client that [get_event_loop] reads and writes,
    and the number of loops built so far. *)
Record LoopState := mkLoopState {
  _event_loop : option event_loop;
  loop_force_sync : bool;
  loops_built : nat }.

Definition get_event_loop : M LoopState event_loop :=
  s <- get;;
  match _event_loop s with
  | Some l => ret l
  | None =>
      if loop_force_sync s
      then
        let l := own_loop (loops_built s) in
        modify (fun s => mkLoopState (Some l) (loop_force_sync s)
                           (Datatypes.S (loops_built s)));;;
        ret l
      else ret ambient_loop
  end.

(** Calls that leave the two modelled files; a transport is created on,
    and a consumer awaited on, an event loop. *)
Inductive event :=
| TransportClose (c : conn_id)
| TransportConnect (c : conn_id) (loop : event_loop)
| NewRequest (consumer : consumer_id) (r : option Request)
| SetConsumer (c : conn_id) (consumer : consumer_id)
| CallLater (delay : Z) (p : pool_id) (consumer : consumer_id)
| RunUntilComplete (loop : event_loop) (consumer : consumer_id)
| ConnectionUpgrade (c : conn_id) (f : factory).

(** The [Client] attributes the modelled methods read or write;
    [client_loop] holds [force_sync] and [_event_loop], [sc_consumer] is
    [SingleClient._consumer]. *)
Record Client := mkClient {
  connection_pools : list (key * pool_id);
  max_connections : Z;
  max_reconnect : Z;
  reconnecting_gap : Z;
  client_loop : LoopState;
  consumer_factory : option factory;
  sc_consumer : option consumer_id }.

Definition force_sync (c : Client) : bool := loop_force_sync (client_loop c).

Record World := mkWorld {
  conns : gmap conn_id Connection;
  consumers : gmap consumer_id Consumer;
  pools : gmap pool_id Pool;
  client : Client;
  trace : list event }.

(** *** Field updates *)

Definition set_conns (f : gmap conn_id Connection -> gmap conn_id Connection) (w : World) : World :=
  mkWorld (f (conns w)) (consumers w) (pools w) (client w) (trace w).
Definition set_consumers (f : gmap consumer_id Consumer -> gmap consumer_id Consumer) (w : World) : World :=
  mkWorld (conns w) (f (consumers w)) (pools w) (client w) (trace w).
Definition set_pools (f : gmap pool_id Pool -> gmap pool_id Pool) (w : World) : World :=
  mkWorld (conns w) (consumers w) (f (pools w)) (client w) (trace w).
Definition set_client (f : Client -> Client) (w : World) : World :=
  mkWorld (conns w) (consumers w) (pools w) (f (client w)) (trace w).
Definition log (e : event) (w : World) : World :=
  mkWorld (conns w) (consumers w) (pools w) (client w) (trace w ++ [e]).

Definition set_available (f : gset conn_id -> gset conn_id) (p : Pool) : Pool :=
  mkPool (pool_address p) (pool_timeout p) (pool_max_connections p)
         (f (_available_connections p)) (_concurrent_connections p).
Definition set_concurrent (f : gset conn_id -> gset conn_id) (p : Pool) : Pool :=
  mkPool (pool_address p) (pool_timeout p) (pool_max_connections p)
         (_available_connections p) (f (_concurrent_connections p)).

Definition set_connection_pools (f : list (key * pool_id) -> list (key * pool_id)) (c : Client) : Client :=
  mkClient (f (connection_pools c)) (max_connections c) (max_reconnect c)
           (reconnecting_gap c) (client_loop c) (consumer_factory c) (sc_consumer c).
Definition set_sc_consumer (o : option consumer_id) (c : Client) : Client :=
  mkClient (connection_pools c) (max_connections c) (max_reconnect c)
           (reconnecting_gap c) (client_loop c) (consumer_factory c) o.
Definition set_client_loop (s : LoopState) (c : Client) : Client :=
  mkClient (connection_pools c) (max_connections c) (max_reconnect c)
           (reconnecting_gap c) s (consumer_factory c) (sc_consumer c).

(** Reading an object through a reference.  References handed out by the
    model always resolve; a dangling one is reported as [AttributeError]. *)
Definition the_pool (p : pool_id) : M World Pool :=
  fun w => match pools w !! p with
           | Some x => (w, Ok x)
           | None => (w, Raise (AttributeError "pool"))
           end.
Definition the_conn (c : conn_id) : M World Connection :=
  fun w => match conns w !! c with
           | Some x => (w, Ok x)
           | None => (w, Raise (AttributeError "connection"))
           end.
Definition the_consumer (c : consumer_id) : M World Consumer :=
  fun w => match consumers w !! c with
           | Some x => (w, Ok x)
           | None => (w, Raise (AttributeError "consumer"))
           end.

(** [Client.get_event_loop] on the client of the store: [get_event_loop]
    runs on the client's own attributes. *)
Definition Client_get_event_loop : M World event_loop :=
  fun w => let (s, r) := get_event_loop (client_loop (client w)) in
           (set_client (set_client_loop s) w, r).

(** The client after a call to its [get_event_loop]. *)
Definition with_event_loop (c : Client) : Client :=
  set_client_loop (fst (get_event_loop (client_loop c))) c.

Definition update_pool (p : pool_id) (f : Pool -> Pool) : M World unit :=
  modify (set_pools (fun m => match m !! p with Some x => <[p := f x]> m | None => m end)).
Definition update_conn (c : conn_id) (f : Connection -> Connection) : M World unit :=
  modify (set_conns (fun m => match m !! c with Some x => <[c := f x]> m | None => m end)).
Definition update_consumer (c : consumer_id) (f : Consumer -> Consumer) : M World unit :=
  modify (set_consumers (fun m => match m !! c with Some x => <[c := f x]> m | None => m end)).

(** *** Python containers *)

(** [set.pop()]: removes and returns an arbitrary element, [KeyError] on
    the empty set.  Which element comes out is up to the interpreter: the
    index [k] resolves the choice, every element being reachable by some
    [k]. *)
Definition set_pop (k : nat) (s : gset conn_id) : option (conn_id * gset conn_id) :=
  match elements s with
  | [] => None
  | x :: l => let y := nth (k mod length (x :: l)) (x :: l) x in
              Some (y, s ∖ {[y]})
  end.

(** [dict.get(k)] and [dict.pop(k)] on a dictionary kept in iteration
    order; keys are unique. *)
Fixpoint dict_get (k : key) (d : list (key * pool_id)) : option pool_id :=
  match d with
  | [] => None
  | (k', p) :: d' => if decide (k = k') then Some p else dict_get k d'
  end.

Fixpoint dict_pop (k : key) (d : list (key * pool_id)) : list (key * pool_id) :=
  match d with
  | [] => []
  | (k', p) :: d' => if decide (k = k') then d' else (k', p) :: dict_pop k d'
  end.

(** Truth value of the local variable [key] of [remove_pool]: [None] is
    false, a two-element tuple is true. *)
Definition key_truthy (k : option key) : bool :=
  match k with Some _ => true | None => false end.

Definition is_KeyError (e : exn) : bool :=
  match e with KeyError => true | _ => false end.

(** *** Client.remove_pool *)

(** The [for key, p in items: if pool is p: break] loop: the value of
    [key] when the loop is left. *)
Fixpoint remove_pool_scan (pool : pool_id) (items : list (key * pool_id))
         (key0 : option key) : option key :=
  match items with
  | [] => key0
  | (k, p) :: rest =>
      if decide (pool = p) then Some k else remove_pool_scan pool rest (Some k)
  end.

Definition Client_remove_pool (pool : pool_id) (c : Client) : Client :=
  let key := remove_pool_scan pool (connection_pools c) None in
  if key_truthy key
  then match key with
       | Some k => set_connection_pools (dict_pop k) c
       | None => c
       end
  else c.

Definition remove_pool (pool : pool_id) : M World unit :=
  modify (set_client (Client_remove_pool pool)).

Section Pool.

(** [Client.can_reuse_connection] is a hook that subclasses override;
    the base class answers [True] ([Client_can_reuse_connection]). *)
Variable can_reuse_connection : Connection -> option Consumer -> bool.

(** **** ConnectionPool._remove_self *)
Definition _remove_self (self : pool_id) (client : obj) : M World unit :=
  P <- the_pool self;;
  if bool_decide (_available_connections P = ∅)
     && bool_decide (_concurrent_connections P = ∅)
  then match client with
       | ObjClient => remove_pool self
       | ObjPool _ => raise (AttributeError "remove_pool")
       end
  else ret tt.

Definition the_response (response : option consumer_id) : M World (option Consumer) :=
  match response with
  | None => ret None
  | Some r => x <- the_consumer r;; ret (Some x)
  end.

(** **** ConnectionPool.release_connection *)
Definition release_connection (self : pool_id) (connection : conn_id)
           (response : option consumer_id) : M World unit :=
  update_pool self (set_concurrent (fun s => s ∖ {[connection]}));;;
  c <- the_conn connection;;
  reuse <- match conn_producer c with
           | ObjClient => r <- the_response response;;
                          ret (can_reuse_connection c r)
           | ObjPool _ => raise (AttributeError "can_reuse_connection")
           end;;
  (if reuse : bool
   then update_pool self (set_available (fun s => {[connection]} ∪ s))
   else ret tt);;;
  _remove_self self (conn_producer c).

(** **** ConnectionPool._release_response *)
Definition _release_response (self : pool_id) (response : consumer_id) : M World unit :=
  r <- the_consumer response;;
  if default true (cons_release_connection r)
  then match cons_connection r with
       | Some c => release_connection self c (Some response)
       | None => raise (AttributeError "producer")
       end
  else ret tt.

(** Modelled from the spec: [Producer.new_connection] of protocols.py,
    which is not among the sources.  Section 4.3 of the specification
    has it construct a new Connection through the client's factories and
    refuse, with [TooManyConnections], an admission that would exceed
    [max_connections]; the pool invariant counts
    [|available| + |concurrent|].  The [producer] is the one the caller
    passes.  What else the producer does with a connection it builds
    (handlers of its own, the counting of a connection whose connect is
    pending) is in protocols.py too and is left out: the connection starts
    without handlers and in neither set. *)
Definition new_connection (self : pool_id) (producer : obj) : M World conn_id :=
  P <- the_pool self;;
  if pool_max_connections P <=?
       Z.of_nat (size (_available_connections P) + size (_concurrent_connections P))
  then raise TooManyConnections
  else
    w <- get;;
    let c := fresh (dom (conns w)) in
    modify (set_conns (insert c
      (mkConnection producer false false None ClientConsumerFactory [] [])));;;
    ret c.

Definition bind_post_request (h : handler) (c : Connection) : Connection :=
  mkConnection (conn_producer c) (conn_closed c) (conn_stale c)
    (conn_current_consumer c) (conn_consumer_factory c)
    (conn_post_request c ++ [h]) (conn_connection_lost c).
Definition bind_connection_lost (h : handler) (c : Connection) : Connection :=
  mkConnection (conn_producer c) (conn_closed c) (conn_stale c)
    (conn_current_consumer c) (conn_consumer_factory c)
    (conn_post_request c) (conn_connection_lost c ++ [h]).
Definition mark_closed (c : Connection) : Connection :=
  mkConnection (conn_producer c) true (conn_stale c)
    (conn_current_consumer c) (conn_consumer_factory c)
    (conn_post_request c) (conn_connection_lost c).
Definition set_current_consumer (o : option consumer_id) (c : Connection) : Connection :=
  mkConnection (conn_producer c) (conn_closed c) (conn_stale c)
    o (conn_consumer_factory c)
    (conn_post_request c) (conn_connection_lost c).
Definition set_consumer_factory (f : factory) (c : Connection) : Connection :=
  mkConnection (conn_producer c) (conn_closed c) (conn_stale c)
    (conn_current_consumer c) f
    (conn_post_request c) (conn_connection_lost c).

(** [connection.transport.close()]: the connection is closed from now on;
    the [connection_lost] event that follows is delivered by the transport,
    outside this method. *)
Definition transport_close (c : conn_id) : M World unit :=
  update_conn c mark_closed;;; modify (log (TransportClose c)).

(** [self._available_connections.pop()] *)
Definition pop_available (self : pool_id) (k : nat) : M World conn_id :=
  P <- the_pool self;;
  match set_pop k (_available_connections P) with
  | None => raise KeyError
  | Some (c, rest) => update_pool self (set_available (fun _ => rest));;; ret c
  end.

(** The [while closed] loop of [get_or_create_connection].  Every turn
    removes one element of the available set, so [n] turns, [n] the size
    of that set on entry, exhaust it: at [n = 0] the next [pop()] finds
    it empty ([reserve_budget] below shows a larger [n] changes nothing).
    [picks i] resolves the choice of the [i]-th [pop()]. *)
Fixpoint reserve (n : nat) (picks : nat -> nat) (i : nat) (self : pool_id)
  : M World conn_id :=
  match n with
  | O => raise KeyError
  | S n' =>
      connection <- pop_available self (picks i);;
      c <- the_conn connection;;
      let closed := conn_stale c in
      (if closed && negb (conn_closed c)
       then transport_close connection else ret tt);;;
      if closed then reserve n' picks (S i) self else ret connection
  end.

(** What [get_or_create_connection] returns: a connection of the pool,
    or the pending connect of a new one. *)
Inductive acquired :=
| Ready (c : conn_id)
| Pending (c : conn_id).

(** **** ConnectionPool.get_or_create_connection *)
Definition get_or_create_connection (picks : nat -> nat) (self : pool_id)
           (client : obj) : M World acquired :=
  P <- the_pool self;;
  connection <- try_except_else
                  (reserve (size (_available_connections P)) picks 0 self)
                  is_KeyError
                  (ret None)
                  (fun c =>
                     update_pool self (set_concurrent (fun s => {[c]} ∪ s));;;
                     ret (Some c));;
  match connection with
  | None =>
      c <- new_connection self client;;
      update_conn c (bind_post_request (H_release_response self));;;
      update_conn c (bind_connection_lost (H_try_reconnect self c));;;
      loop <- match client with
              | ObjClient => Client_get_event_loop
              | ObjPool _ => raise (AttributeError "get_event_loop")
              end;;
      modify (log (TransportConnect c loop));;;
      ret (Pending c)
  | Some c => ret (Ready c)
  end.

(** **** Client.get_connection *)
Definition get_connection (picks : nat -> nat) (request : Request) : M World acquired :=
  w <- get;;
  pool <- match dict_get (Request_key request) (connection_pools (client w)) with
          | Some p => ret p
          | None =>
              let p := fresh (dom (pools w)) in
              modify (set_pools (insert p
                (mkPool (req_address request) (req_timeout request)
                        (max_connections (client w)) ∅ ∅)));;;
              modify (set_client (set_connection_pools
                (fun d => d ++ [(Request_key request, p)])));;;
              ret p
          end;;
  get_or_create_connection picks pool ObjClient.

(** **** Reconnection *)

(** Names bound at module level in clients.py: its imports and its
    classes. *)
Definition module_globals : list string :=
  [ "socket"; "partial"; "reduce"; "TooManyConnections";
    "get_event_loop"; "new_event_loop"; "itervalues";
    "get_transport_type"; "create_socket"; "is_failure";
    "ProtocolConsumer"; "EventHandler"; "Producer";
    "create_transport"; "LOGGER";
    "Request"; "ConnectionPool"; "Client"; "SingleClient" ].

Definition global_name (n : string) : M World unit :=
  if bool_decide (n ∈ module_globals) then ret tt else raise (NameError n).

(** [Client.reconnect_time_lag]:
    [lag = self.reconnect_time_lag*(math.log(lag) + 1); return round(lag, 1)].
    The left operand is the bound method itself; evaluating the right
    operand looks [math] up, which no import of the module binds.  Were
    it bound, a method times a float would raise [TypeError].  The
    delay would be in tenths of a second (one decimal). *)
Definition reconnect_time_lag (lag : Z) : M World Z :=
  global_name "math";;;
  raise TypeError.

(** The failure handed to a [connection_lost] handler: [None] when
    [is_failure(exc)] is false. *)
Inductive exc_class :=
| socket_timeout
| socket_error
| other_error.

Definition retryable (exc : option exc_class) : bool :=
  match exc with
  | Some socket_timeout | Some socket_error => true
  | _ => false
  end.

(** [ProtocolConsumer.can_reconnect(max_reconnect, exc)] belongs to the
    consumer class of the application. *)
Variable can_reconnect : Consumer -> Z -> option exc_class -> Z.

Definition set_request (r : option Request) (c : Consumer) : Consumer :=
  mkConsumer (cons_connection c) (cons_release_connection c)
             (cons_status_code c) (cons_finished c) r.
Definition set_connection (o : option conn_id) (c : Consumer) : Consumer :=
  mkConsumer o (cons_release_connection c)
             (cons_status_code c) (cons_finished c) (cons_current_request c).
Definition set_release_connection (b : bool) (c : Consumer) : Consumer :=
  mkConsumer (cons_connection c) (Some b)
             (cons_status_code c) (cons_finished c) (cons_current_request c).
Definition mark_finished (c : Consumer) : Consumer :=
  mkConsumer (cons_connection c) (cons_release_connection c)
             (cons_status_code c) true (cons_current_request c).

(** Modelled from the spec: [ProtocolConsumer.new_request] of
    protocols.py, which is not among the sources.  Section 4.5: it fires
    [pre_request] and triggers the write of the request; here the
    request becomes the consumer's current one and the call is
    recorded. *)
Definition new_request (consumer : consumer_id) (r : option Request) : M World unit :=
  _ <- the_consumer consumer;;
  update_consumer consumer (set_request r);;;
  modify (log (NewRequest consumer r)).

(** Modelled from the spec: [Connection.set_consumer] of protocols.py,
    which is not among the sources.  Section 4.4: the existing consumer
    is attached to the connection. *)
Definition set_consumer (c : conn_id) (consumer : consumer_id) : M World unit :=
  _ <- the_conn c;;
  update_conn c (set_current_consumer (Some consumer));;;
  update_consumer consumer (set_connection (Some c));;;
  modify (log (SetConsumer c consumer)).

Definition acquired_conn (a : acquired) : conn_id :=
  match a with Ready c | Pending c => c end.

(** **** ConnectionPool._reconnect *)
Definition _reconnect (picks : nat -> nat) (self : pool_id) (client : obj)
           (consumer : consumer_id) : M World unit :=
  conn <- get_or_create_connection picks self client;;
  set_consumer (acquired_conn conn) consumer;;;
  r <- the_consumer consumer;;
  new_request consumer (cons_current_request r).

(** **** ConnectionPool._try_reconnect *)
Definition _try_reconnect (picks : nat -> nat) (self : pool_id)
           (connection : conn_id) (exc : option exc_class) : M World unit :=
  if retryable exc then
    c <- the_conn connection;;
    match conn_current_consumer c with
    | None => ret tt
    | Some consumer =>
        match conn_producer c with
        | ObjPool _ => raise (AttributeError "max_reconnect")
        | ObjClient =>
            w <- get;;
            r <- the_consumer consumer;;
            let retries := can_reconnect r (max_reconnect (client w)) exc in
            if bool_decide (retries ≠ 0) then
              update_conn connection (set_current_consumer None);;;
              let lag := retries - 1 in
              if bool_decide (lag ≠ 0) then
                lag' <- reconnect_time_lag lag;;
                modify (log (CallLater lag' self consumer))
              else
                _reconnect picks self ObjClient consumer
            else ret tt
        end
    end
  else ret tt.

(** **** Protocol upgrade *)

(** Modelled from the spec: [Connection.upgrade] of protocols.py, which
    is not among the sources.  Section 4.5 and the glossary: it swaps the
    connection's consumer factory, so that later data is interpreted by
    the new protocol. *)
Definition Connection_upgrade (c : conn_id) (f : factory) : M World unit :=
  _ <- the_conn c;;
  update_conn c (set_consumer_factory f);;;
  modify (log (ConnectionUpgrade c f)).

(** A handler bound to [post_request] on a connection, run for a
    response.  [_try_reconnect] is only ever bound to
    [connection_lost]; called without a failure it returns at once. *)
Definition run_post_request (h : handler) (response : consumer_id) : M World unit :=
  match h with
  | H_release_response p => _release_response p response
  | H_try_reconnect _ _ => ret tt
  end.

(** Modelled from the spec: [ProtocolConsumer.finished] of protocols.py,
    which is not among the sources.  Sections 4.1 and 4.2: the consumer
    is marked finished and [post_request] fires, once per consumer, to
    the handlers bound on its connection, in registration order. *)
Definition finished (response : consumer_id) : M World unit :=
  r <- the_consumer response;;
  if cons_finished r then ret tt
  else
    update_consumer response mark_finished;;;
    match cons_connection r with
    | None => ret tt
    | Some c =>
        conn <- the_conn c;;
        for_each (conn_post_request conn) (fun h => run_post_request h response)
    end.

(** **** Client.upgrade *)
Definition upgrade (connection : conn_id) (protocol_factory : factory)
  : M World (option conn_id) :=
  c <- the_conn connection;;
  match conn_current_consumer c with
  | Some protocol =>
      update_consumer protocol (set_release_connection false);;;
      finished protocol;;;
      Connection_upgrade connection protocol_factory;;;
      ret (Some connection)
  | None => ret None
  end.

(** **** Client.response *)

(** Modelled from the spec: the call [self.consumer_factory(conn)].  The
    factory is an attribute of the application's client (class default
    [None], which is not callable); section 4.5 has it construct a
    ProtocolConsumer bound to the connection. *)
Definition call_consumer_factory (conn : conn_id) : M World consumer_id :=
  w <- get;;
  match consumer_factory (client w) with
  | None => raise TypeError
  | Some _ =>
      let k := fresh (dom (consumers w)) in
      modify (set_consumers (insert k (mkConsumer (Some conn) None 0 false None)));;;
      update_conn conn (set_current_consumer (Some k));;;
      ret k
  end.

Definition response (picks : nat -> nat) (request : Request) : M World consumer_id :=
  conn <- get_connection picks request;;
  consumer <- call_consumer_factory (acquired_conn conn);;
  new_request consumer (Some request);;;
  loop <- Client_get_event_loop;;
  w <- get;;
  (if force_sync (client w)
   then modify (log (RunUntilComplete loop consumer)) else ret tt);;;
  ret consumer.

(** **** SingleClient.response *)
Definition SingleClient_response (picks : nat -> nat) (request : Request)
  : M World consumer_id :=
  w <- get;;
  match sc_consumer (client w) with
  | None =>
      consumer <- response picks request;;
      modify (set_client (set_sc_consumer (Some consumer)));;;
      ret consumer
  | Some consumer =>
      new_request consumer (Some request);;;
      ret consumer
  end.

End Pool.

(** A series of calls to [SingleClient.response], each with the request it
    is given; the results are listed in call order. *)
Fixpoint SingleClient_responses (calls : list ((nat -> nat) * Request)) (w : World)
  : World * list (result consumer_id) :=
  match calls with
  | [] => (w, [])
  | (picks, request) :: rest =>
      let (w1, r) := SingleClient_response picks request w in
      let (w2, rs) := SingleClient_responses rest w1 in
      (w2, r :: rs)
  end.

(** [Client.can_reuse_connection] of the base class. *)
Definition Client_can_reuse_connection (c : Connection) (r : option Consumer) : bool := true.

(** [Client.__init__]: [max_connections or self.max_connections or 2**31]
    with the class defaults [max_connections = 0], [max_reconnect = 1],
    [reconnecting_gap = 2]; [_event_loop] starts as [None]. *)
Definition Client_init (max_conn : option Z) (max_rec : option Z) (sync : bool)
           (consumer_fact : option factory) : Client :=
  let or_ (a b : Z) := if decide (a = 0) then b else a in
  mkClient [] (or_ (or_ (default 0 max_conn) 0) (2 ^ 31))
           (or_ (default 0 max_rec) 1) 2 (mkLoopState None sync 0) consumer_fact None.

Definition World_init (c : Client) : World := mkWorld ∅ ∅ ∅ c [].

(** *** Pool histories and the pool invariants *)

(** The two operations a pool offers to its client. *)
Inductive pool_op :=
| OpGetOrCreate (picks : nat -> nat)
| OpRelease (connection : conn_id) (response : option consumer_id).

Section Histories.

Variable can_reuse_connection : Connection -> option Consumer -> bool.

(** The store after one operation; an operation that raises leaves the
    store as it was when the exception left it. *)
Definition run_op (self : pool_id) (o : pool_op) (w : World) : World :=
  match o with
  | OpGetOrCreate picks => fst (get_or_create_connection picks self ObjClient w)
  | OpRelease c r => fst (release_connection can_reuse_connection self c r w)
  end.

Definition run_ops (self : pool_id) (ops : list pool_op) (w : World) : World :=
  fold_left (fun w o => run_op self o w) ops w.

End Histories.

Definition producer_of (w : World) (c : conn_id) : option obj :=
  conn_producer <$> conns w !! c.

(** The pool invariant with [o] as the producer of the pool's connections:
    [p] is a pool whose available and concurrent sets are disjoint, and
    every connection held in either set has its [producer] equal to [o]. *)
Definition pool_ok (w : World) (p : pool_id) (o : obj) : Prop :=
  exists P, pools w !! p = Some P
    ∧ _available_connections P ## _concurrent_connections P
    ∧ set_Forall (fun c => producer_of w c = Some o)
        (_available_connections P ∪ _concurrent_connections P).

Definition in_available (w : World) (p : pool_id) (c : conn_id) : Prop :=
  match pools w !! p with
  | Some P => c ∈ _available_connections P
  | None => False
  end.

Definition in_concurrent (w : World) (p : pool_id) (c : conn_id) : Prop :=
  match pools w !! p with
  | Some P => c ∈ _concurrent_connections P
  | None => False
  end.

(** The release rule in the form that also looks at the [closed] flag:
    after the release the connection is out of the concurrent set, and it is
    in the available set exactly when it can be reused and is not closed. *)
Definition release_rule_with_closed (w' : World) (p : pool_id) (c : conn_id)
           (reuse closed : bool) : Prop :=
  ¬ in_concurrent w' p c
  ∧ (in_available w' p c ↔ reuse = true ∧ closed = false).

(** *** Draining the available set *)

(** [w'] holds the connections of [w], some of them closed meanwhile. *)
Definition closes_only (w w' : World) : Prop :=
  forall c, conns w' !! c = conns w !! c
            ∨ conns w' !! c = mark_closed <$> conns w !! c.

(** What the [while closed] loop has done between [w] and [w']: the
    available set of pool [p], which was that of [P], has shrunk to [rest];
    every connection that left it, but for the one [kept], was stale and is
    closed now; the transports closed are the only calls recorded. *)
Definition drained (p : pool_id) (P : Pool) (rest : gset conn_id)
           (kept : option conn_id) (w w' : World) : Prop :=
  pools w' = <[p := set_available (fun _ => rest) P]> (pools w)
  ∧ rest ⊆ _available_connections P
  ∧ closes_only w w'
  ∧ consumers w' = consumers w
  ∧ client w' = client w
  ∧ (exists closed, trace w' = trace w ++ (TransportClose <$> closed))
  ∧ (forall c, c ∈ _available_connections P -> c ∉ rest -> Some c ≠ kept ->
       exists C, conns w' !! c = Some C
                 ∧ conn_stale C = true ∧ conn_closed C = true).

(** *** The pool after a release *)

(** The pool that [release_connection] leaves behind: the connection is out
    of the concurrent set and, when it can be reused, in the available
    one. *)
Definition released_pool (P : Pool) (c : conn_id) (reuse : bool) : Pool :=
  mkPool (pool_address P) (pool_timeout P) (pool_max_connections P)
    (if reuse then {[c]} ∪ _available_connections P else _available_connections P)
    (_concurrent_connections P ∖ {[c]}).

Definition pool_is_empty (P : Pool) : bool :=
  bool_decide (_available_connections P = ∅)
  && bool_decide (_concurrent_connections P = ∅).

(** *** The registry of pools *)

(** The registry after [get_connection]: a pool is registered for the key
    of the request when there was none. *)
Definition registered (request : Request) (w : World) (d : list (key * pool_id))
  : list (key * pool_id) :=
  match dict_get (Request_key request) d with
  | Some _ => d
  | None => d ++ [(Request_key request, fresh (dom (pools w)))]
  end.

(** *** Client.update_parameters *)

Section Parameters.

(** The values of keyword parameters, and [getattr(self, name)] on the
    client: [None] when the client has no such attribute. *)
Variable V : Type.
Variable getattr : string -> option V.

(** [update_parameters(parameter_list, params)]: the dictionary [params]
    is updated in place and returned. *)
Definition update_parameters (parameter_list : list string)
  : M (gmap string V) (gmap string V) :=
  for_each parameter_list
    (fun name =>
       params <- get;;
       match params !! name with
       | Some _ => ret tt
       | None =>
           match getattr name with
           | Some v => modify (insert name v)
           | None => raise (AttributeError name)
           end
       end);;;
  get.

End Parameters.

(** *** ConnectionPool.available_connections and Client.available_connections *)

(** [len(self._available_connections)] *)
Definition Pool_available_connections (P : Pool) : nat :=
  size (_available_connections P).

(** [reduce(lambda x, y: x + y, (p.available_connections for p in
    itervalues(self.connection_pools)), 0)] *)
Fixpoint reduce_available (ps : list pool_id) (acc : nat) : M World nat :=
  match ps with
  | [] => ret acc
  | p :: rest =>
      P <- the_pool p;;
      reduce_available rest (acc + Pool_available_connections P)
  end.

Definition Client_available_connections : M World nat :=
  w <- get;;
  reduce_available (connection_pools (client w)).*2 0.

End Clients.

(** ** plugins.py *)

Module Plugins.

Import Clients.

(** Responses are compared by identity: a history is a list of response
    objects. *)
Definition response_id := nat.

(** Values of the keyword parameters of a request ([inp_params]). *)
Inductive value :=
| VNone
| VBool (b : bool)
| VInt (z : Z)
| VStr (s : string)
| VHistory (h : list response_id).

Record HttpRequest := mkHttpRequest {
  method : string;
  full_url : string;
  history : option (list response_id);
  max_redirects : Z;
  allow_redirects : bool;
  inp_params : gmap string value }.

Record HttpResponse := mkHttpResponse {
  resp_id : response_id;
  status_code : Z;
  headers : gmap string string;
  request : HttpRequest }.

(** [class request_again(namedtuple('request_again', 'method url params'))] *)
Record request_again := mk_request_again {
  ra_method : string;
  ra_url : string;
  ra_params : gmap string value }.

Definition request_again_status_code (r : request_again) : Z := -1.
Definition request_again_headers (r : request_again) : list (string * string) := [].

(** Truth value of [request.history]: [None] and the empty list are
    false. *)
Definition history_truthy (h : option (list response_id)) : bool :=
  match h with
  | Some (_ :: _) => true
  | _ => false
  end.

Definition history_len (h : option (list response_id)) : Z :=
  Z.of_nat (length (default [] h)).

(** The history a redirect hands on: the request's own, copied, with the
    current response at its end. *)
Definition next_history (response : HttpResponse) : list response_id :=
  default [] (history (request response)) ++ [resp_id response].

(** What [urlparse] returns, as far as [_do_redirect] reads it. *)
Record parsed_url := mk_parsed_url {
  scheme : string;
  netloc : string }.

Section Redirect.

(** The URL utilities and the set of redirect codes come from
    [pulsar.utils.httpurl].  A call of a utility may raise instead of
    returning, as [urlparse] does, with [ValueError], on a malformed URL. *)
Variable REDIRECT_CODES : list Z.
Variable urlparse : string -> result parsed_url.
Variable urljoin : string -> string -> result string.
Variable requote_uri : string -> result string.

(** [handle_redirect]: whether [_do_redirect] gets bound to
    [post_request]. *)
Definition handle_redirect (response : HttpResponse) (exc : bool) : bool :=
  negb exc
  && (bool_decide (status_code response ∈ REDIRECT_CODES)
      && bool_decide (is_Some (headers response !! "location"))
      && allow_redirects (request response)).

(** The resolution of the [location] header, the first part of
    [_do_redirect]: an exception of a URL utility ends it. *)
Definition redirect_url (request : HttpRequest) (location : string) : result string :=
  match (if String.prefix "//" location
         then match urlparse (full_url request) with
              | Ok parsed_rurl => Ok (scheme parsed_rurl ++ ":" ++ location)%string
              | Raise e => Raise e
              end
         else Ok location) with
  | Raise e => Raise e
  | Ok url =>
      match urlparse url with
      | Raise e => Raise e
      | Ok parsed =>
          if bool_decide (netloc parsed = "")
          then match requote_uri url with
               | Ok quoted => urljoin (full_url request) quoted
               | Raise e => Raise e
               end
          else Ok url
      end
  end.

(** [_do_redirect] *)
Definition _do_redirect (response : HttpResponse) : result request_again :=
  let request := request response in
  match headers response !! "location" with
  | None => Raise (AttributeError "startswith")
  | Some location =>
      match redirect_url request location with
      | Raise e => Raise e
      | Ok url =>
          let history := history request in
          if history_truthy history && (max_redirects request <=? history_len history)
          then Raise (TooManyRedirects (resp_id response))
          else
            let params := inp_params request in
            let copied := if history_truthy history then default [] history else [] in
            let params :=
              <["history" := VHistory (copied ++ [resp_id response])]> params in
            if status_code response =? 303
            then Ok (mk_request_again "GET" url (delete "files" (delete "data" params)))
            else Ok (mk_request_again (method request) url params)
      end
  end.

(** Modelled from the spec: the re-dispatch of a [request_again] by the
    HTTP client, which is not among the sources.  Section 4.5: the client
    constructs a new request from [(method, url, params)] and goes
    through [response] again, the history being threaded through
    [params]; the other parameters of the request are the copied ones. *)
Definition redispatch (request : HttpRequest) (again : request_again) : HttpRequest :=
  mkHttpRequest (ra_method again) (ra_url again)
    (match ra_params again !! "history" with
     | Some (VHistory h) => Some h
     | _ => None
     end)
    (max_redirects request) (allow_redirects request) (ra_params again).

(** How a logical request ends, with the number of HTTP exchanges it
    took. *)
Inductive outcome :=
| Completed (r : HttpResponse) (exchanges : nat)
| Failed (e : exn) (exchanges : nat)
| Unfinished.

(** The server: status code and headers answered to the [n]-th
    exchange. *)
Definition server := nat -> HttpRequest -> Z * gmap string string.

Fixpoint exchange (fuel : nat) (srv : server) (n : nat) (request : HttpRequest) : outcome :=
  match fuel with
  | O => Unfinished
  | S fuel' =>
      let '(status, hdrs) := srv n request in
      let response := mkHttpResponse n status hdrs request in
      if handle_redirect response false
      then match _do_redirect response with
           | Ok again => exchange fuel' srv (S n) (redispatch request again)
           | Raise e => Failed e (S n)
           end
      else Completed response (S n)
  end.

Definition exchanges_of (o : outcome) : option nat :=
  match o with
  | Completed _ n | Failed _ n => Some n
  | Unfinished => None
  end.

(** The redirect bound: the logical request ended within
    [max_redirects + 1] exchanges. *)
Definition within_redirect_bound (o : outcome) (bound : Z) : Prop :=
  match exchanges_of o with
  | Some n => Z.of_nat n <= bound + 1
  | None => False
  end.

End Redirect.

(** *** 101 Switching Protocols *)

Section Upgrade.

Variable can_reuse_connection : Connection -> option Consumer -> bool.

(** [handle_101]: the response is the protocol consumer of the
    handshake; the factory it installs builds the [WebSocketClient]
    for that handshake. *)
Definition handle_101 (response : consumer_id) (exc : bool) : M World unit :=
  r <- the_consumer response;;
  if negb exc && (cons_status_code r =? 101)
  then match cons_connection r with
       | None => raise (AttributeError "upgrade")
       | Some connection =>
           Connection_upgrade connection (WebSocketFactory response);;;
           finished can_reuse_connection response
       end
  else ret tt.

End Upgrade.

(** *** Tunneling *)

Definition request_ref := nat.

Inductive tunnel_handler :=
| Tunneling_self
| Tunneling_on_headers_handler
| other_handler (n : nat).

(** The attributes of a request that [Tunneling.__call__] touches;
    [_apply_tunnel] is [None] while the attribute does not exist. *)
Record TRequest := mkTRequest {
  _tunnel : option request_ref;
  _apply_tunnel : option bool }.

Record TResponse := mkTResponse {
  _request : option request_ref;
  pre_request : list tunnel_handler;
  on_headers : list tunnel_handler;
  transport_is_tls : bool }.

Record TState := mkTState {
  requests : gmap request_ref TRequest;
  tresponse : TResponse }.

Definition the_request (r : request_ref) : M TState TRequest :=
  fun s => match requests s !! r with
           | Some x => (s, Ok x)
           | None => (s, Raise (AttributeError "_tunnel"))
           end.

Definition set_apply_tunnel (r : request_ref) (b : bool) : M TState unit :=
  modify (fun s => mkTState
    (match requests s !! r with
     | Some x => <[r := mkTRequest (_tunnel x) (Some b)]> (requests s)
     | None => requests s
     end) (tresponse s)).

Definition set_response_request (r : request_ref) : M TState unit :=
  modify (fun s => mkTState (requests s)
    (mkTResponse (Some r) (pre_request (tresponse s)) (on_headers (tresponse s))
                 (transport_is_tls (tresponse s)))).

Definition bind_pre_request (h : tunnel_handler) : M TState unit :=
  modify (fun s => mkTState (requests s)
    (mkTResponse (_request (tresponse s)) (pre_request (tresponse s) ++ [h])
                 (on_headers (tresponse s)) (transport_is_tls (tresponse s)))).

Definition bind_on_headers (h : tunnel_handler) : M TState unit :=
  modify (fun s => mkTState (requests s)
    (mkTResponse (_request (tresponse s)) (pre_request (tresponse s))
                 (on_headers (tresponse s) ++ [h]) (transport_is_tls (tresponse s)))).

(** [Tunneling.__call__] *)
Definition Tunneling_call : M TState unit :=
  s <- get;;
  match _request (tresponse s) with
  | None => ret tt
  | Some rq =>
      request <- the_request rq;;
      match _tunnel request with
      | None => ret tt
      | Some tunnel =>
          if default false (_apply_tunnel request)
          then
            if negb (transport_is_tls (tresponse s))
            then set_response_request tunnel;;;
                 bind_on_headers Tunneling_on_headers_handler
            else ret tt
          else
            set_apply_tunnel rq true;;;
            bind_pre_request Tunneling_self
      end
  end.

(** [n] firings of [pre_request] in a row, as far as the tunneling plugin
    is concerned. *)
Fixpoint Tunneling_calls (n : nat) (s : TState) : TState :=
  match n with
  | O => s
  | Datatypes.S n' => Tunneling_calls n' (fst (Tunneling_call s))
  end.

(** *** The switch to TLS *)

(** Names bound at module level in plugins.py: its imports, its classes
    and its functions. *)
Definition plugins_globals : list string :=
  [ "sys"; "partial"; "namedtuple"; "copy"; "Future";
    "WebSocketProtocol"; "WS"; "frame_parser"; "is_tls";
    "REDIRECT_CODES"; "urlparse"; "urljoin"; "requote_uri"; "SimpleCookie";
    "PulsarException";
    "request_again"; "TooManyRedirects"; "WebSocketClient";
    "handle_redirect"; "_do_redirect"; "handle_cookies"; "handle_100";
    "_write_body"; "handle_101"; "Tunneling" ].

Inductive transport :=
| plain_transport
| ssl_transport (server_hostname : string).

(** The future [d] that [_tunnel_consumer] returns. *)
Inductive future :=
| future_pending
| future_failed (e : exn)
| future_chained (netloc : string).

Inductive loop_call :=
| remove_reader
| call_later_switch_to_ssl (delay : Z).

(** The connection a tunnel runs on, as far as [_tunnel_consumer] and
    [switch_to_ssl] touch it: its transport, its counters and those of its
    producer, the events silenced, the requests started on rebuilt
    consumers, the calls made on its event loop, and the future. *)
Record TunnelConnection := mkTunnelConnection {
  tc_transport : transport;
  tc_processed : Z;
  tc_requests_processed : Z;
  tc_silenced : list string;
  tc_started : list string;
  tc_loop : list loop_call;
  tc_future : future }.

Definition plugins_global (n : string) : M TunnelConnection unit :=
  if bool_decide (n ∈ plugins_globals) then ret tt else raise (NameError n).

(** [Tunneling._tunnel_consumer]: the reader is taken off the loop and
    [switch_to_ssl] is scheduled one second later; the new future is
    returned. *)
Definition _tunnel_consumer : M TunnelConnection future :=
  modify (fun c => mkTunnelConnection (tc_transport c) (tc_processed c)
                     (tc_requests_processed c) (tc_silenced c) (tc_started c)
                     (tc_loop c ++ [remove_reader; call_later_switch_to_ssl 1])
                     future_pending);;;
  ret future_pending.

(** [Tunneling.switch_to_ssl] for a request to [netloc].  The [try] suite
    calls [SocketStreamSslTransport], installs the result as the
    connection's transport, silences the next [connection_made], takes one
    off both counters, and starts the request on a rebuilt consumer whose
    [on_finished] is chained to the future; any exception is handed to the
    future instead. *)
Definition switch_to_ssl (netloc : string) : M TunnelConnection unit :=
  try_except_Exception
    (plugins_global "SocketStreamSslTransport";;;
     modify (fun c => mkTunnelConnection (ssl_transport netloc) (tc_processed c)
                        (tc_requests_processed c) (tc_silenced c) (tc_started c)
                        (tc_loop c) (tc_future c));;;
     modify (fun c => mkTunnelConnection (tc_transport c) (tc_processed c)
                        (tc_requests_processed c)
                        (tc_silenced c ++ ["connection_made"]) (tc_started c)
                        (tc_loop c) (tc_future c));;;
     modify (fun c => mkTunnelConnection (tc_transport c) (tc_processed c - 1)
                        (tc_requests_processed c) (tc_silenced c) (tc_started c)
                        (tc_loop c) (tc_future c));;;
     modify (fun c => mkTunnelConnection (tc_transport c) (tc_processed c)
                        (tc_requests_processed c - 1) (tc_silenced c) (tc_started c)
                        (tc_loop c) (tc_future c));;;
     modify (fun c => mkTunnelConnection (tc_transport c) (tc_processed c)
                        (tc_requests_processed c) (tc_silenced c)
                        (tc_started c ++ [netloc])
                        (tc_loop c) (future_chained netloc)))
    (fun e =>
       modify (fun c => mkTunnelConnection (tc_transport c) (tc_processed c)
                          (tc_requests_processed c) (tc_silenced c) (tc_started c)
                          (tc_loop c) (future_failed e))).

End Plugins.


(** ** Example stores *)

Module Examples.

Import Clients.

(** A client with its defaults and a consumer factory. *)
Definition a_client : Client :=
  Client_init None None false (Some ClientConsumerFactory).

Definition first_pick : nat -> nat := fun _ => 0%nat.

(** The pool that [get_connection] builds for a request to ["h"]. *)
Definition fresh_pool : Pool := mkPool "h" 0 (max_connections a_client) ∅ ∅.

(** A store whose only pool, [0], has just been constructed and
    registered. *)
Definition fresh_world : World :=
  mkWorld ∅ ∅ {[ 0%nat := fresh_pool ]}
    (set_connection_pools (fun _ => [(("h", 0), 0%nat)]) a_client) [].

(** The pool creates a connection, which is later released to it. *)
Definition create_then_release : list pool_op :=
  [OpGetOrCreate first_pick; OpRelease 0%nat None].

(** A connection whose transport is closed, still counted as in flight by
    its pool. *)
Definition closed_conn : Connection :=
  mkConnection ObjClient true false None ClientConsumerFactory
    [H_release_response 0%nat] [H_try_reconnect 0%nat 0%nat].

Definition busy_pool : Pool := mkPool "h" 0 (max_connections a_client) ∅ {[ 0%nat ]}.

Definition closed_world : World :=
  mkWorld {[ 0%nat := closed_conn ]} ∅ {[ 0%nat := busy_pool ]}
    (set_connection_pools (fun _ => [(("h", 0), 0%nat)]) a_client) [].

(** The same store for a synchronous client. *)
Definition sync_world : World :=
  mkWorld ∅ ∅ {[ 0%nat := fresh_pool ]}
    (set_connection_pools (fun _ => [(("h", 0), 0%nat)])
       (Client_init None None true (Some ClientConsumerFactory))) [].

(** A pool capped at one connection, which is in flight. *)
Definition saturated_pool : Pool := mkPool "h" 0 1 ∅ {[ 0%nat ]}.

Definition saturated_world : World :=
  mkWorld {[ 0%nat := mkConnection ObjClient false false None ClientConsumerFactory
                        [H_release_response 0%nat] [H_try_reconnect 0%nat 0%nat] ]}
    ∅ {[ 0%nat := saturated_pool ]}
    (set_connection_pools (fun _ => [(("h", 0), 0%nat)])
       (Client_init (Some 1) None false (Some ClientConsumerFactory))) [].

(** A connection lost while consumer [0] was using it; the client allows
    two reconnections and the consumer answers [can_reconnect] with the
    number it is allowed. *)
Definition lost_world : World :=
  mkWorld {[ 0%nat := mkConnection ObjClient false false (Some 0%nat) ClientConsumerFactory
                        [H_release_response 0%nat] [H_try_reconnect 0%nat 0%nat] ]}
    {[ 0%nat := mkConsumer (Some 0%nat) None 0 false (Some (mkRequest "h" 0)) ]}
    {[ 0%nat := busy_pool ]}
    (set_connection_pools (fun _ => [(("h", 0), 0%nat)])
       (Client_init None (Some 2) false (Some ClientConsumerFactory))) [].

Definition retries_allowed (c : Consumer) (max_reconnect : Z) (exc : option exc_class) : Z :=
  max_reconnect.

(** Pool [1] has emptied and has already been taken out of the client's
    registry, where pool [0] is still registered. *)
Definition deregistered_world : World :=
  mkWorld {[ 0%nat := mkConnection ObjClient false false None ClientConsumerFactory
                        [H_release_response 0%nat] [H_try_reconnect 0%nat 0%nat] ]}
    ∅ {[ 0%nat := busy_pool; 1%nat := mkPool "g" 0 (max_connections a_client) ∅ ∅ ]}
    (set_connection_pools (fun _ => [(("h", 0), 0%nat)]) a_client) [].

(** The handshake consumer [0] has received a [101] on connection [0] of
    pool [0]; the pool's handlers are bound as [get_or_create_connection]
    binds them. *)
Definition handshake_world : World :=
  mkWorld {[ 0%nat := mkConnection ObjClient false false (Some 0%nat) ClientConsumerFactory
                        [H_release_response 0%nat] [H_try_reconnect 0%nat 0%nat] ]}
    {[ 0%nat := mkConsumer (Some 0%nat) None 101 false (Some (mkRequest "h" 0)) ]}
    {[ 0%nat := busy_pool ]}
    (set_connection_pools (fun _ => [(("h", 0), 0%nat)]) a_client) [].

(** A response about to send request [0], which goes through a proxy:
    request [1] is its CONNECT tunnel request.  The socket is plain. *)
Definition tunnel_state : Plugins.TState :=
  Plugins.mkTState
    {[ 0%nat := Plugins.mkTRequest (Some 1%nat) None;
       1%nat := Plugins.mkTRequest None None ]}
    (Plugins.mkTResponse (Some 0%nat) [Plugins.Tunneling_self] [] false).

(** Stand-ins for the URL utilities, enough to run the examples: every
    URL is on the host [h], and one with an unclosed bracket in its network
    location is malformed. *)
Definition codes : list Z := [301; 302; 303; 307; 308].
Definition parse (url : string) : result Plugins.parsed_url :=
  if String.prefix "http://[" url then Raise ValueError
  else Ok (Plugins.mk_parsed_url "http"
             (if String.prefix "http://" url then "h" else "")).
Definition join (base url : string) : result string := Ok ("http://h" ++ url)%string.
Definition requote (url : string) : result string := Ok url.

(** A POST with a body and an upload, answered with [303 See Other]. *)
Definition post_request : Plugins.HttpRequest :=
  Plugins.mkHttpRequest "POST" "http://h/x" None 30 true
    {[ "data" := Plugins.VStr "body"; "files" := Plugins.VStr "upload" ]}.

Definition see_other : Plugins.HttpResponse :=
  Plugins.mkHttpResponse 0%nat 303 {[ "location" := "/y" ]} post_request.


(** The same POST answered with [307 Temporary Redirect]. *)
Definition temporary_redirect : Plugins.HttpResponse :=
  Plugins.mkHttpResponse 0%nat 307 {[ "location" := "/y" ]} post_request.

(** A redirect whose [location] is malformed. *)
Definition malformed_redirect : Plugins.HttpResponse :=
  Plugins.mkHttpResponse 0%nat 302 {[ "location" := "http://[" ]} post_request.

(** A request that allows no redirect at all, and a server that answers
    every exchange with a redirect. *)
Definition no_redirect_request : Plugins.HttpRequest :=
  Plugins.mkHttpRequest "GET" "http://h/a" None 0 true ∅.

Definition redirect_request : Plugins.HttpRequest :=
  Plugins.mkHttpRequest "GET" "http://h/a" None 2 true ∅.

Definition always_redirect : Plugins.server :=
  fun _ _ => (302, {[ "location" := "/b" ]}).

Definition found : Plugins.HttpResponse :=
  Plugins.mkHttpResponse 0%nat 302 {[ "location" := "/b" ]} redirect_request.

(** The first answer to the request that allows no redirect. *)
Definition first_found : Plugins.HttpResponse :=
  Plugins.mkHttpResponse 0%nat 302 {[ "location" := "/b" ]} no_redirect_request.

(** Picks under which [pop()] hands out the stale connection of
    [idle_pool] before the live one. *)
Definition stale_first : nat -> nat := fun _ => 1%nat.

(** An idle pool holding a stale connection, [0], and a live one, [1]. *)
Definition idle_pool : Pool :=
  mkPool "h" 0 (max_connections a_client) {[ 0%nat; 1%nat ]} ∅.

Definition stale_conn : Connection :=
  mkConnection ObjClient false true None ClientConsumerFactory
    [H_release_response 0%nat] [H_try_reconnect 0%nat 0%nat].

Definition live_conn : Connection :=
  mkConnection ObjClient false false None ClientConsumerFactory
    [H_release_response 0%nat] [H_try_reconnect 0%nat 1%nat].

Definition idle_world : World :=
  mkWorld {[ 0%nat := stale_conn; 1%nat := live_conn ]} ∅ {[ 0%nat := idle_pool ]}
    (set_connection_pools (fun _ => [(("h", 0), 0%nat)]) a_client) [].

(** The attributes a client offers as defaults for request parameters. *)
Definition client_attribute (name : string) : option Z :=
  if decide (name = "timeout") then Some 30
  else if decide (name = "max_redirects") then Some 10
  else None.

Definition request_parameters : list string := ["timeout"; "max_redirects"].

Definition given_parameters : gmap string Z := {[ "timeout" := 1 ]}.

Definition filled_parameters : gmap string Z :=
  {[ "timeout" := 1; "max_redirects" := 10 ]}.

(** The same response over a transport that is TLS already. *)
Definition tls_tunnel_state : Plugins.TState :=
  Plugins.mkTState
    {[ 0%nat := Plugins.mkTRequest (Some 1%nat) None;
       1%nat := Plugins.mkTRequest None None ]}
    (Plugins.mkTResponse (Some 0%nat) [Plugins.Tunneling_self] [] true).

End Examples.

(** * Properties *)

Import Clients Plugins.

(** ** Reasoning rules of the monad *)

Section MonadRules.

Context {S : Type}.

Lemma wp_bind {A B} (c : M S A) (k : A -> M S B) Q E s :
  wp c (fun a s' => wp (k a) Q E s') E s -> wp (bind c k) Q E s.
Proof.
  unfold wp, bind. destruct (c s) as [s' [a|e]]; auto.
Qed.

Lemma wp_ret {A} (a : A) (Q : A -> S -> Prop) E s : Q a s -> wp (ret a) Q E s.
Proof. auto. Qed.

Lemma wp_raise {A} e (Q : A -> S -> Prop) (E : exn -> S -> Prop) s :
  E e s -> wp (raise e) Q E s.
Proof. auto. Qed.

Lemma wp_get (Q : S -> S -> Prop) E s : Q s s -> wp get Q E s.
Proof. auto. Qed.

Lemma wp_modify (f : S -> S) (Q : unit -> S -> Prop) E s :
  Q tt (f s) -> wp (modify f) Q E s.
Proof. auto. Qed.

Lemma wp_mono {A} (c : M S A) (Q Q' : A -> S -> Prop) (E E' : exn -> S -> Prop) s :
  wp c Q E s ->
  (forall a s', Q a s' -> Q' a s') ->
  (forall e s', E e s' -> E' e s') ->
  wp c Q' E' s.
Proof.
  unfold wp. destruct (c s) as [s' [a|e]]; auto.
Qed.

Lemma wp_try_except_else {A B} (c : M S A) (catches : exn -> bool)
      (h : M S B) (els : A -> M S B) Q E s :
  wp c (fun a s' => wp (els a) Q E s')
       (fun e s' => if catches e then wp h Q E s' else E e s') s ->
  wp (try_except_else c catches h els) Q E s.
Proof.
  unfold wp, try_except_else. destruct (c s) as [s' [a|e]]; auto.
  destruct (catches e); auto.
Qed.

Lemma wp_for_each {A} (I : S -> Prop) (l : list A) (body : A -> M S unit) E s :
  I s ->
  (forall x s', I s' -> wp (body x) (fun _ => I) E s') ->
  wp (for_each l body) (fun _ => I) E s.
Proof.
  intros Hs Hbody. revert s Hs.
  induction l as [|x l IH]; intros s Hs; simpl.
  - exact Hs.
  - apply wp_bind. eapply wp_mono; [apply Hbody, Hs | | auto].
    intros ? s' Hs'. apply IH, Hs'.
Qed.

Lemma wp_fst {A} (c : M S A) (P : S -> Prop) s :
  wp c (fun _ => P) (fun _ => P) s <-> P (fst (c s)).
Proof.
  unfold wp. destruct (c s) as [s' [a|e]]; simpl; tauto.
Qed.

Lemma wp_result {A} (c : M S A) Q E s s' a :
  wp c Q E s -> c s = (s', Ok a) -> Q a s'.
Proof. unfold wp. intros H Heq. rewrite Heq in H. exact H. Qed.

Lemma wp_total {A} (c : M S A) (Q : A -> S -> Prop) s :
  wp c Q (fun _ _ => False) s -> exists s' a, c s = (s', Ok a) ∧ Q a s'.
Proof.
  unfold wp. destruct (c s) as [s' [a|e]]; [eauto|tauto].
Qed.

Lemma wp_trivial {A} (c : M S A) s : wp c (fun _ _ => True) (fun _ _ => True) s.
Proof. unfold wp. by destruct (c s) as [s' [a|e]]. Qed.

End MonadRules.

(** ** Python containers *)

Lemma set_pop_Some k (s : gset conn_id) c rest :
  set_pop k s = Some (c, rest) -> c ∈ s ∧ rest = s ∖ {[c]}.
Proof.
  unfold set_pop. destruct (elements s) as [|x l] eqn:Hel; [discriminate|].
  assert (In (nth (k mod length (x :: l)) (x :: l) x) (x :: l)) as Hin.
  { apply nth_In, Nat.mod_upper_bound. simpl. lia. }
  revert Hin. generalize (nth (k mod length (x :: l)) (x :: l) x).
  intros y Hin [= <- <-]. split; [|reflexivity].
  apply elem_of_elements. rewrite Hel. by apply list_elem_of_In.
Qed.

Lemma set_pop_None k (s : gset conn_id) : set_pop k s = None <-> s = ∅.
Proof.
  unfold set_pop. destruct (elements s) as [|x l] eqn:Hel.
  - split; [intros _|reflexivity]. apply elements_empty_inv in Hel.
    by apply leibniz_equiv.
  - split; [discriminate|]. intros ->. rewrite elements_empty in Hel. discriminate.
Qed.

(** Every element of the set can be the one [pop()] returns. *)
Lemma set_pop_any (s : gset conn_id) c : c ∈ s -> exists k, set_pop k s = Some (c, s ∖ {[c]}).
Proof.
  intros Hc. apply elem_of_elements, list_elem_of_In in Hc.
  destruct (In_nth _ _ c Hc) as (k & Hk & Hn).
  exists k. unfold set_pop.
  destruct (elements s) as [|x l] eqn:Hel; [simpl in Hk; lia|].
  rewrite Nat.mod_small by exact Hk.
  rewrite (nth_indep _ x c Hk), Hn. reflexivity.
Qed.

Lemma set_pop_size k (s : gset conn_id) c rest :
  set_pop k s = Some (c, rest) -> size s = Datatypes.S (size rest).
Proof.
  intros H. apply set_pop_Some in H as [Hc ->].
  rewrite (size_difference s {[c]}) by set_solver.
  rewrite size_singleton.
  assert (size s ≠ 0%nat) by (apply size_non_empty_iff; set_solver).
  lia.
Qed.


(** ** Stores *)

Lemma wp_the_pool q (Q : Pool -> World -> Prop) E w :
  match pools w !! q with
  | Some P => Q P w
  | None => E (AttributeError "pool") w
  end -> wp (the_pool q) Q E w.
Proof. unfold wp, the_pool. destruct (pools w !! q); auto. Qed.

Lemma wp_the_conn c (Q : Connection -> World -> Prop) E w :
  match conns w !! c with
  | Some C => Q C w
  | None => E (AttributeError "connection") w
  end -> wp (the_conn c) Q E w.
Proof. unfold wp, the_conn. destruct (conns w !! c); auto. Qed.

Lemma wp_the_consumer c (Q : Consumer -> World -> Prop) E w :
  match consumers w !! c with
  | Some C => Q C w
  | None => E (AttributeError "consumer") w
  end -> wp (the_consumer c) Q E w.
Proof. unfold wp, the_consumer. destruct (consumers w !! c); auto. Qed.

Lemma wp_update_pool q f (Q : unit -> World -> Prop) E w P :
  pools w !! q = Some P ->
  Q tt (set_pools (insert q (f P)) w) ->
  wp (update_pool q f) Q E w.
Proof.
  intros HP HQ. unfold update_pool. apply wp_modify.
  unfold set_pools in *. by rewrite HP.
Qed.

Lemma wp_update_conn c f (Q : unit -> World -> Prop) E w C :
  conns w !! c = Some C ->
  Q tt (set_conns (insert c (f C)) w) ->
  wp (update_conn c f) Q E w.
Proof.
  intros HC HQ. unfold update_conn. apply wp_modify.
  unfold set_conns in *. by rewrite HC.
Qed.

Lemma wp_update_consumer c f (Q : unit -> World -> Prop) E w C :
  consumers w !! c = Some C ->
  Q tt (set_consumers (insert c (f C)) w) ->
  wp (update_consumer c f) Q E w.
Proof.
  intros HC HQ. unfold update_consumer. apply wp_modify.
  unfold set_consumers in *. by rewrite HC.
Qed.

(** [get_event_loop] always returns a loop. *)
Lemma get_event_loop_returns (s : LoopState) :
  exists s' l, get_event_loop s = (s', Ok l).
Proof.
  unfold get_event_loop, bind, get. destruct s as [[l|] [|] n]; simpl; eauto.
Qed.

Lemma wp_Client_get_event_loop (Q : event_loop -> World -> Prop) E w :
  (forall l, snd (get_event_loop (client_loop (client w))) = Ok l ->
             Q l (set_client with_event_loop w)) ->
  wp Client_get_event_loop Q E w.
Proof.
  intros HQ. unfold wp, Client_get_event_loop.
  destruct (get_event_loop_returns (client_loop (client w))) as (s & l & Hrun).
  specialize (HQ l). unfold set_client, with_event_loop in HQ.
  rewrite Hrun in *. by apply HQ.
Qed.

(** A second call to [get_event_loop] changes nothing more, and a client
    that is not synchronous, or has its loop, is not changed at all. *)
Lemma with_event_loop_idem c : with_event_loop (with_event_loop c) = with_event_loop c.
Proof. by destruct c as [? ? ? ? [[l|] [|] n] ? ?]. Qed.


(** ** The pool invariant *)

Section PoolInvariant.

Variable can_reuse_connection : Connection -> option Consumer -> bool.
Variable p : pool_id.
Variable o : obj.

(** The invariant reads the pools and the producers only. *)
Lemma pool_ok_frame w w' :
  pools w' = pools w ->
  (forall c, producer_of w c = Some o -> producer_of w' c = Some o) ->
  pool_ok w p o -> pool_ok w' p o.
Proof.
  intros Hp Hc (P & HP & Hd & Hf). exists P. rewrite Hp.
  repeat split; auto. intros c Hin. apply Hc, Hf, Hin.
Qed.

Lemma pool_ok_set_pool w P P' :
  pools w !! p = Some P ->
  _available_connections P' ## _concurrent_connections P' ->
  (forall c, c ∈ _available_connections P' ∪ _concurrent_connections P' ->
             producer_of w c = Some o) ->
  pool_ok (set_pools (insert p P') w) p o.
Proof.
  intros HP Hd Hf. exists P'. simpl. rewrite lookup_insert_eq.
  repeat split; auto.
Qed.

Lemma producer_of_update_conn w c f C c' :
  conns w !! c = Some C ->
  conn_producer (f C) = conn_producer C ->
  producer_of (set_conns (insert c (f C)) w) c' = producer_of w c'.
Proof.
  intros HC Hf. unfold producer_of. simpl.
  destruct (decide (c = c')) as [<-|Hne].
  - rewrite lookup_insert_eq, HC. simpl. by rewrite Hf.
  - by rewrite lookup_insert_ne.
Qed.

Lemma wp_update_conn_ok c f (R : World -> Prop) E w :
  (forall C, conn_producer (f C) = conn_producer C) ->
  pool_ok w p o ->
  (forall w', pool_ok w' p o -> R w') ->
  wp (update_conn c f) (fun _ => R) E w.
Proof.
  intros Hf Hok HR. unfold update_conn. apply wp_modify, HR.
  revert Hok. apply pool_ok_frame; [done|].
  intros c'. unfold producer_of. simpl.
  destruct (conns w !! c) as [C|] eqn:HC; [|done].
  destruct (decide (c = c')) as [<-|Hne].
  - rewrite lookup_insert_eq, HC. simpl. by rewrite Hf.
  - by rewrite lookup_insert_ne.
Qed.

End PoolInvariant.

Section PoolOperations.

Variable can_reuse_connection : Connection -> option Consumer -> bool.
Variable p : pool_id.

Local Abbreviation ok := (fun w => pool_ok w p ObjClient).

Lemma remove_self_ok client w :
  pool_ok w p ObjClient ->
  wp (_remove_self p client) (fun _ => ok) (fun _ => ok) w.
Proof.
  intros Hok. unfold _remove_self.
  apply wp_bind, wp_the_pool. destruct (pools w !! p) as [P|]; [|exact Hok].
  destruct (_ && _); [|exact Hok].
  destruct client; [|exact Hok].
  apply wp_modify. revert Hok. by apply pool_ok_frame.
Qed.

Lemma release_connection_ok c r w :
  pool_ok w p ObjClient ->
  wp (release_connection can_reuse_connection p c r) (fun _ => ok) (fun _ => ok) w.
Proof.
  intros (P & HP & Hd & Hf). unfold release_connection.
  apply wp_bind. eapply wp_update_pool; [exact HP|].
  set (w1 := set_pools _ w).
  assert (pool_ok w1 p ObjClient) as Hok1.
  { apply pool_ok_set_pool with P; simpl; [done|set_solver|].
    intros c' Hc'. apply Hf. set_solver. }
  assert (pools w1 !! p = Some (set_concurrent (fun s => s ∖ {[c]}) P)) as HP1.
  { simpl. by rewrite lookup_insert_eq. }
  apply wp_bind, wp_the_conn. destruct (conns w1 !! c) as [C|] eqn:HC; [|exact Hok1].
  apply wp_bind.
  destruct (conn_producer C) eqn:Hprod; [|exact Hok1].
  apply wp_bind.
  assert (wp (the_response r)
            (fun a w' => w' = w1) (fun _ w' => w' = w1) w1) as Hresp.
  { unfold the_response. destruct r as [r|]; [|done].
    apply wp_bind, wp_the_consumer. by destruct (consumers w1 !! r). }
  eapply wp_mono; [exact Hresp| |by intros ? ? ->].
  intros resp ? ->. apply wp_ret.
  apply wp_bind.
  destruct (can_reuse_connection C resp).
  - eapply wp_update_pool; [exact HP1|].
    apply remove_self_ok.
    apply pool_ok_set_pool with (set_concurrent (fun s => s ∖ {[c]}) P);
      simpl; [done|set_solver|].
    intros c' Hc'.
    destruct (decide (c' = c)) as [->|Hne].
    + unfold producer_of. simpl in HC. simpl. rewrite HC. simpl. by rewrite Hprod.
    + unfold producer_of. simpl. apply Hf. set_solver.
  - apply wp_ret. by apply remove_self_ok.
Qed.

Lemma pop_available_ok k w :
  pool_ok w p ObjClient ->
  wp (pop_available p k)
     (fun c w' => pool_ok w' p ObjClient
                  ∧ producer_of w' c = Some ObjClient
                  ∧ ¬ in_available w' p c ∧ ¬ in_concurrent w' p c)
     (fun _ => ok) w.
Proof.
  intros (P & HP & Hd & Hf). unfold pop_available.
  apply wp_bind, wp_the_pool. rewrite HP.
  destruct (set_pop k (_available_connections P)) as [[c rest]|] eqn:Hpop.
  - apply set_pop_Some in Hpop as [Hc ->].
    apply wp_bind. eapply wp_update_pool; [exact HP|]. apply wp_ret.
    split; [|split; [|split]].
    + apply pool_ok_set_pool with P; simpl; [done|set_solver|].
      intros c' Hc'. apply Hf. set_solver.
    + unfold producer_of. simpl. apply Hf. set_solver.
    + unfold in_available. simpl. rewrite lookup_insert_eq. simpl. set_solver.
    + unfold in_concurrent. simpl. rewrite lookup_insert_eq. simpl. set_solver.
  - apply wp_raise. by exists P.
Qed.

Lemma transport_close_ok c w (R : World -> Prop) :
  (forall w', pools w' = pools w ->
              (forall c', producer_of w' c' = producer_of w c') -> R w') ->
  wp (transport_close c) (fun _ => R) (fun _ => R) w.
Proof.
  intros HR. unfold transport_close, update_conn.
  apply wp_bind, wp_modify, wp_modify. apply HR; [done|].
  intros c'. unfold producer_of. simpl.
  destruct (conns w !! c) as [C|] eqn:HC; [|done].
  destruct (decide (c = c')) as [<-|Hne].
  - by rewrite lookup_insert_eq, HC.
  - by rewrite lookup_insert_ne.
Qed.

Lemma reserve_ok n picks i w :
  pool_ok w p ObjClient ->
  wp (reserve n picks i p)
     (fun c w' => pool_ok w' p ObjClient
                  ∧ producer_of w' c = Some ObjClient
                  ∧ ¬ in_available w' p c)
     (fun _ => ok) w.
Proof.
  revert i w. induction n as [|n IH]; intros i w Hok; simpl.
  - by apply wp_raise.
  - apply wp_bind. eapply wp_mono; [apply pop_available_ok, Hok| |auto].
    intros c w1 (Hok1 & Hprod & Hna & _).
    apply wp_bind, wp_the_conn. destruct (conns w1 !! c) as [C|] eqn:HC; [|exact Hok1].
    apply wp_bind.
    destruct (conn_stale C) eqn:Hstale; simpl.
    + assert (forall w2, pools w2 = pools w1 ->
                (forall c', producer_of w2 c' = producer_of w1 c') ->
                wp (reserve n picks (Datatypes.S i) p)
                   (fun c w' => pool_ok w' p ObjClient
                                ∧ producer_of w' c = Some ObjClient
                                ∧ ¬ in_available w' p c)
                   (fun _ => ok) w2) as Hnext.
      { intros w2 Hp2 Hc2. apply IH. revert Hok1. apply pool_ok_frame; [done|].
        intros c'. by rewrite Hc2. }
      destruct (conn_closed C); simpl.
      * apply wp_ret. by apply Hnext.
      * eapply wp_mono;
          [apply (transport_close_ok c w1
                    (fun w2 => pools w2 = pools w1
                               ∧ forall c', producer_of w2 c' = producer_of w1 c'));
           auto | |].
        -- intros _ w2 [Hp2 Hc2]. by apply Hnext.
        -- intros _ w2 [Hp2 Hc2]. revert Hok1. apply pool_ok_frame; [done|].
           intros c'. by rewrite Hc2.
    + apply wp_ret, wp_ret. auto.
Qed.

Lemma get_or_create_connection_ok picks w :
  pool_ok w p ObjClient ->
  wp (get_or_create_connection picks p ObjClient) (fun _ => ok) (fun _ => ok) w.
Proof.
  intros Hok. unfold get_or_create_connection.
  apply wp_bind, wp_the_pool. destruct (pools w !! p) as [P|] eqn:HP; [|exact Hok].
  apply wp_bind.
  apply wp_mono with (Q := fun _ => ok) (E := fun _ => ok).
  - apply wp_try_except_else.
    eapply wp_mono; [apply reserve_ok, Hok| |].
    + intros c w1 ((P1 & HP1 & Hd1 & Hf1) & Hprod & Hna).
      apply wp_bind. eapply wp_update_pool; [exact HP1|]. apply wp_ret.
      unfold in_available in Hna. rewrite HP1 in Hna.
      apply pool_ok_set_pool with P1; simpl; [done|set_solver|].
      intros c' Hc'. destruct (decide (c' = c)) as [->|Hne]; [done|].
      apply Hf1. set_solver.
    + intros e w1 Hok1. destruct (is_KeyError e); [by apply wp_ret|done].
  - intros [c|] w1 Hok1; [by apply wp_ret|].
    unfold new_connection.
    apply wp_bind, wp_bind, wp_the_pool.
    destruct (pools w1 !! p) as [P1|] eqn:HP1; [|exact Hok1].
    destruct (_ <=? _); [exact Hok1|].
    apply wp_bind, wp_get, wp_bind, wp_modify, wp_ret.
    set (c := fresh (dom (conns w1))).
    set (C := mkConnection _ _ _ _ _ _ _).
    assert (conns w1 !! c = None) as Hfresh.
    { apply not_elem_of_dom, is_fresh. }
    set (w2 := set_conns (insert c C) w1).
    assert (pool_ok w2 p ObjClient) as Hok2.
    { revert Hok1. apply pool_ok_frame; [done|].
      intros c'. unfold producer_of. simpl.
      destruct (decide (c = c')) as [<-|Hne].
      - by rewrite Hfresh.
      - by rewrite lookup_insert_ne. }
    apply wp_bind, (wp_update_conn_ok p ObjClient); [done|exact Hok2|].
    intros w3 Hok3.
    apply wp_bind, (wp_update_conn_ok p ObjClient); [done|exact Hok3|].
    intros w4 Hok4.
    apply wp_bind, wp_Client_get_event_loop. intros l Hl.
    apply wp_bind, wp_modify, wp_ret.
    revert Hok4. by apply pool_ok_frame.
  - auto.
Qed.

Lemma run_op_ok op w :
  pool_ok w p ObjClient -> pool_ok (run_op can_reuse_connection p op w) p ObjClient.
Proof.
  intros Hok. destruct op as [picks|c r]; simpl.
  - by apply (wp_fst (get_or_create_connection picks p ObjClient) ok),
             get_or_create_connection_ok.
  - by apply (wp_fst (release_connection can_reuse_connection p c r) ok),
             release_connection_ok.
Qed.

End PoolOperations.

(** ** The acquisition loop runs within its budget *)

Lemma pop_available_pools k p w P w1 c :
  pools w !! p = Some P ->
  pop_available p k w = (w1, Ok c) ->
  exists P1, pools w1 !! p = Some P1
    ∧ size (_available_connections P) = Datatypes.S (size (_available_connections P1)).
Proof.
  intros HP. unfold pop_available, bind, the_pool. rewrite HP.
  destruct (set_pop k (_available_connections P)) as [[c' rest]|] eqn:Hpop;
    [|discriminate].
  unfold update_pool, modify, ret, set_pools. simpl. rewrite HP. intros [= <- <-].
  eexists. split; [simpl; apply lookup_insert_eq|].
  simpl. by apply set_pop_size in Hpop.
Qed.

(** A budget beyond the size of the available set is never used up: the
    loop behaves as with the exact size. *)
Lemma reserve_budget n picks i p w P :
  pools w !! p = Some P ->
  (size (_available_connections P) <= n)%nat ->
  reserve n picks i p w = reserve (size (_available_connections P)) picks i p w.
Proof.
  revert i w P. induction n as [|n IH]; intros i w P HP Hle.
  - by replace (size (_available_connections P)) with 0%nat by lia.
  - destruct (size (_available_connections P)) as [|m] eqn:Hsize.
    + apply size_empty_inv, leibniz_equiv in Hsize.
      simpl. unfold pop_available, the_pool, bind. rewrite HP.
      by rewrite (proj2 (set_pop_None (picks i) _) Hsize).
    + simpl. unfold bind.
      destruct (pop_available p (picks i) w) as [w1 [c|e]] eqn:Hpop; [|done].
      destruct (pop_available_pools _ _ _ _ _ _ HP Hpop) as (P1 & HP1 & Hs1).
      assert (size (_available_connections P1) = m) as Hm by lia.
      unfold the_conn. destruct (conns w1 !! c) as [C|]; [|done].
      destruct (conn_stale C); [|done]. simpl.
      destruct (conn_closed C); simpl.
      * rewrite (IH _ _ P1) by (done || lia). by rewrite Hm.
      * rewrite (IH _ _ P1); [by rewrite Hm| |lia].
        simpl. by destruct (conns w1 !! c).
Qed.

(** ** C1: the pool invariant over histories *)

Lemma pool_ok_available w p o c :
  pool_ok w p o -> in_available w p c -> producer_of w c = Some o.
Proof.
  intros (P & HP & _ & Hf). unfold in_available. rewrite HP.
  intros Hc. apply Hf. set_solver.
Qed.

(** C1, as the code has it: over every sequence of
    [get_or_create_connection] and [release_connection] operations on a pool,
    the available and the concurrent set stay disjoint and every connection
    held in either set keeps the client, which [get_or_create_connection]
    passes as [producer], as its producer. *)
Theorem pool_invariant_over_histories
        (can_reuse_connection : Connection -> option Consumer -> bool)
        (p : pool_id) (ops : list pool_op) (w : World) :
  pool_ok w p ObjClient ->
  pool_ok (run_ops can_reuse_connection p ops w) p ObjClient.
Proof.
  revert w. induction ops as [|op ops IH]; intros w Hok; simpl.
  - exact Hok.
  - apply IH, run_op_ok, Hok.
Qed.

Lemma pool_invariant_over_histories_witness :
  pool_ok (run_ops Client_can_reuse_connection 0%nat
             Examples.create_then_release Examples.fresh_world) 0%nat ObjClient.
Proof.
  apply (pool_invariant_over_histories Client_can_reuse_connection 0%nat
           Examples.create_then_release Examples.fresh_world).
  exists Examples.fresh_pool. split; [reflexivity|]. split.
  - simpl. apply disjoint_empty_l.
  - simpl. intros c Hc. apply elem_of_union in Hc as [Hc|Hc];
      exfalso; exact (not_elem_of_empty c Hc).
Defined.

(** C1 as stated, with the pool as the producer, fails: the connection a
    fresh pool creates and later takes back is in its available set and its
    producer is the client. *)
Lemma pool_invariant_producer_is_not_the_pool :
  ~ pool_ok (run_ops Client_can_reuse_connection 0%nat
               Examples.create_then_release Examples.fresh_world) 0%nat (ObjPool 0%nat).
Proof.
  intros Hok.
  assert (producer_of (run_ops Client_can_reuse_connection 0%nat
                         Examples.create_then_release Examples.fresh_world) 0%nat
          = Some (ObjPool 0%nat)) as Hprod.
  { apply (pool_ok_available _ 0%nat). exact Hok. vm_compute. reflexivity. }
  vm_compute in Hprod. discriminate Hprod.
Qed.

(** ** C2: releasing a connection *)

Section Release.

Variable can_reuse_connection : Connection -> option Consumer -> bool.

(** The pool after [release_connection]; nothing else of the store but the
    client's registry changes. *)
Lemma release_connection_pool w p P c C response R :
  pools w !! p = Some P ->
  conns w !! c = Some C ->
  conn_producer C = ObjClient ->
  the_response response w = (w, Ok R) ->
  wp (release_connection can_reuse_connection p c response)
     (fun _ w' =>
        pools w' = <[p := mkPool (pool_address P) (pool_timeout P) (pool_max_connections P)
                          (if can_reuse_connection C R
                           then {[c]} ∪ _available_connections P
                           else _available_connections P)
                          (_concurrent_connections P ∖ {[c]})]> (pools w)
        ∧ conns w' = conns w ∧ consumers w' = consumers w ∧ trace w' = trace w)
     (fun _ _ => False) w.
Proof.
  intros HP HC Hprod HR. unfold release_connection.
  apply wp_bind. eapply wp_update_pool; [exact HP|].
  apply wp_bind, wp_the_conn. simpl. rewrite HC.
  apply wp_bind. rewrite Hprod. apply wp_bind.
  assert (forall w1, consumers w1 = consumers w ->
            the_response response w1 = (w1, Ok R)) as HR'.
  { intros w1 Hw1. revert HR. unfold the_response.
    destruct response as [r|]; [|by intros [= <-]].
    unfold bind, the_consumer. rewrite Hw1.
    destruct (consumers w !! r); simpl; [|discriminate]. by intros [= <-]. }
  unfold wp at 1. rewrite HR' by done.
  apply wp_ret, wp_bind.
  assert (forall w1 P1, pools w1 !! p = Some P1 ->
            wp (_remove_self p ObjClient)
               (fun _ w' => pools w' = pools w1 ∧ conns w' = conns w1
                            ∧ consumers w' = consumers w1 ∧ trace w' = trace w1)
               (fun _ _ => False) w1) as Hrem.
  { intros w1 P1 HP1. unfold _remove_self.
    apply wp_bind, wp_the_pool. rewrite HP1.
    destruct (_ && _); [by apply wp_modify|by apply wp_ret]. }
  destruct (can_reuse_connection C R).
  - eapply wp_update_pool; [simpl; apply lookup_insert_eq|].
    eapply wp_mono; [eapply Hrem; simpl; apply lookup_insert_eq| |auto].
    intros _ w' (-> & -> & -> & ->). simpl.
    by rewrite insert_insert_eq.
  - apply wp_ret.
    eapply wp_mono; [eapply Hrem; simpl; apply lookup_insert_eq| |auto].
    by intros _ w' (-> & -> & -> & ->).
Qed.

End Release.

(** C2, as the code has it: [release_connection] removes the connection
    from the concurrent set and, for a connection that was not already
    available, inserts it into the available set exactly when
    [can_reuse_connection] answers true, whether its transport is closed or
    not; otherwise it is in neither set.  The other connections stay where
    they were. *)
Theorem release_connection_rule
        (can_reuse_connection : Connection -> option Consumer -> bool)
        (w : World) (p : pool_id) (P : Pool) (c : conn_id) (C : Connection)
        (response : option consumer_id) (R : option Consumer) :
  pools w !! p = Some P ->
  conns w !! c = Some C ->
  conn_producer C = ObjClient ->
  the_response response w = (w, Ok R) ->
  c ∉ _available_connections P ->
  exists w',
    release_connection can_reuse_connection p c response w = (w', Ok tt)
    ∧ ¬ in_concurrent w' p c
    ∧ (in_available w' p c <-> can_reuse_connection C R = true)
    ∧ (forall c', c' ≠ c ->
         (in_available w' p c' <-> c' ∈ _available_connections P)
         ∧ (in_concurrent w' p c' <-> c' ∈ _concurrent_connections P)).
Proof.
  intros HP HC Hprod HR Hna.
  destruct (wp_total _ _ _
              (release_connection_pool can_reuse_connection w p P c C response R
                 HP HC Hprod HR)) as (w' & [] & Hrun & Hpools & _).
  exists w'. split; [exact Hrun|].
  unfold in_concurrent, in_available. rewrite Hpools, lookup_insert_eq. simpl.
  split; [set_solver|]. split.
  - destruct (can_reuse_connection C R); [set_solver|].
    split; [done|discriminate].
  - intros c' Hne. destruct (can_reuse_connection C R); set_solver.
Qed.

Lemma release_connection_rule_witness :
  exists w',
    release_connection Client_can_reuse_connection 0%nat 0%nat None
      Examples.closed_world = (w', Ok tt)
    ∧ ¬ in_concurrent w' 0%nat 0%nat
    ∧ (in_available w' 0%nat 0%nat
       <-> Client_can_reuse_connection Examples.closed_conn None = true)
    ∧ (forall c', c' ≠ 0%nat ->
         (in_available w' 0%nat c'
          <-> c' ∈ _available_connections Examples.busy_pool)
         ∧ (in_concurrent w' 0%nat c'
            <-> c' ∈ _concurrent_connections Examples.busy_pool)).
Proof.
  apply (release_connection_rule Client_can_reuse_connection
           Examples.closed_world 0%nat Examples.busy_pool 0%nat
           Examples.closed_conn None None).
  - reflexivity.
  - reflexivity.
  - reflexivity.
  - reflexivity.
  - simpl. apply not_elem_of_empty.
Defined.

(** C2 as stated, with the [closed] flag deciding too, fails: a closed
    connection that the client's [can_reuse_connection] accepts ends up in
    the available set. *)
Lemma release_connection_keeps_closed_connection :
  ~ release_rule_with_closed
      (fst (release_connection Client_can_reuse_connection 0%nat 0%nat None
              Examples.closed_world))
      0%nat 0%nat
      (Client_can_reuse_connection Examples.closed_conn None)
      (conn_closed Examples.closed_conn).
Proof.
  intros [_ Hiff].
  assert (in_available
            (fst (release_connection Client_can_reuse_connection 0%nat 0%nat None
                    Examples.closed_world)) 0%nat 0%nat) as Hin.
  { vm_compute. reflexivity. }
  apply Hiff in Hin as [_ Hclosed]. discriminate Hclosed.
Qed.

(** ** C3: admission control *)

(** C3: when the available set of a pool is empty and the pool already
    holds [max_connections] connections, [get_or_create_connection] raises
    [TooManyConnections] and creates nothing: the store is unchanged. *)
Theorem get_or_create_connection_saturated
        (picks : nat -> nat) (w : World) (p : pool_id) (P : Pool) (client : obj) :
  pools w !! p = Some P ->
  _available_connections P = ∅ ->
  Z.of_nat (size (_concurrent_connections P)) = pool_max_connections P ->
  get_or_create_connection picks p client w = (w, Raise TooManyConnections).
Proof.
  intros HP Hav Hfull.
  unfold get_or_create_connection, bind, the_pool, try_except_else.
  rewrite HP, Hav, size_empty. simpl.
  unfold new_connection, bind, the_pool. rewrite HP, Hav, size_empty.
  rewrite Nat.add_0_l, Hfull, Z.leb_refl. reflexivity.
Qed.

Lemma get_or_create_connection_saturated_witness :
  get_or_create_connection Examples.first_pick 0%nat ObjClient Examples.saturated_world
  = (Examples.saturated_world, Raise TooManyConnections).
Proof.
  apply (get_or_create_connection_saturated Examples.first_pick
           Examples.saturated_world 0%nat Examples.saturated_pool ObjClient).
  - reflexivity.
  - reflexivity.
  - vm_compute. reflexivity.
Defined.

(** ** C5: reconnection *)

(** [reconnect_time_lag] never returns a delay: the lookup of [math]
    fails. *)
Lemma reconnect_time_lag_raises lag w :
  reconnect_time_lag lag w = (w, Raise (NameError "math")).
Proof. reflexivity. Qed.

Section Reconnect.

Variable can_reconnect : Consumer -> Z -> option exc_class -> Z.

(** With more than one retry left nothing is scheduled: the exception of
    [reconnect_time_lag] leaves [_try_reconnect], after the consumer has been
    detached from the connection. *)
Lemma try_reconnect_delayed_raises picks p c exc w C consumer R :
  retryable exc = true ->
  conns w !! c = Some C ->
  conn_current_consumer C = Some consumer ->
  conn_producer C = ObjClient ->
  consumers w !! consumer = Some R ->
  can_reconnect R (max_reconnect (client w)) exc ≠ 0 ->
  can_reconnect R (max_reconnect (client w)) exc ≠ 1 ->
  _try_reconnect can_reconnect picks p c exc w
  = (set_conns (insert c (set_current_consumer None C)) w, Raise (NameError "math")).
Proof.
  intros Hexc HC Hcons Hprod HR Hne0 Hne1.
  unfold _try_reconnect. rewrite Hexc.
  unfold bind, the_conn. rewrite HC, Hcons, Hprod.
  unfold get, the_consumer. rewrite HR.
  rewrite bool_decide_true by done.
  unfold update_conn, modify, set_conns. simpl. rewrite HC.
  rewrite bool_decide_true by lia. reflexivity.
Qed.

(** With exactly one retry left ([lag = 0]) the pool reconnects at once. *)
Lemma try_reconnect_immediate picks p c exc w C consumer R :
  retryable exc = true ->
  conns w !! c = Some C ->
  conn_current_consumer C = Some consumer ->
  conn_producer C = ObjClient ->
  consumers w !! consumer = Some R ->
  can_reconnect R (max_reconnect (client w)) exc = 1 ->
  _try_reconnect can_reconnect picks p c exc w
  = _reconnect picks p ObjClient consumer
      (set_conns (insert c (set_current_consumer None C)) w).
Proof.
  intros Hexc HC Hcons Hprod HR Hone.
  unfold _try_reconnect. rewrite Hexc.
  unfold bind at 1, the_conn. rewrite HC, Hcons, Hprod.
  unfold bind at 1, get. unfold bind at 1, the_consumer. rewrite HR, Hone.
  rewrite bool_decide_true by done.
  unfold bind at 1, update_conn, modify, set_conns. simpl. by rewrite HC.
Qed.

(** Without a retry left nothing happens. *)
Lemma try_reconnect_exhausted picks p c exc w C consumer R :
  retryable exc = true ->
  conns w !! c = Some C ->
  conn_current_consumer C = Some consumer ->
  conn_producer C = ObjClient ->
  consumers w !! consumer = Some R ->
  can_reconnect R (max_reconnect (client w)) exc = 0 ->
  _try_reconnect can_reconnect picks p c exc w = (w, Ok tt).
Proof.
  intros Hexc HC Hcons Hprod HR Hzero.
  unfold _try_reconnect. rewrite Hexc.
  unfold bind, the_conn. rewrite HC, Hcons, Hprod.
  unfold get, the_consumer. by rewrite HR, Hzero.
Qed.

End Reconnect.

(** C5 at a failing input: a connection lost on a socket error with two
    retries left ([lag = 1]).  The reconnect is not scheduled after
    [reconnect_time_lag(1)] seconds: [_try_reconnect] raises [NameError] and
    no [call_later] is recorded. *)
Theorem try_reconnect_with_lag_raises :
  snd (_try_reconnect Examples.retries_allowed Examples.first_pick 0%nat 0%nat
         (Some socket_error) Examples.lost_world)
  = Raise (NameError "math")
  ∧ trace (fst (_try_reconnect Examples.retries_allowed Examples.first_pick 0%nat 0%nat
                  (Some socket_error) Examples.lost_world)) = [].
Proof.
  rewrite (try_reconnect_delayed_raises Examples.retries_allowed Examples.first_pick
             0%nat 0%nat (Some socket_error) Examples.lost_world
             (mkConnection ObjClient false false (Some 0%nat) ClientConsumerFactory
                [H_release_response 0%nat] [H_try_reconnect 0%nat 0%nat])
             0%nat
             (mkConsumer (Some 0%nat) None 0 false (Some (mkRequest "h" 0))));
    try reflexivity.
  - split; reflexivity.
  - vm_compute. discriminate.
  - vm_compute. discriminate.
Qed.

(** ** C6: deregistration *)

(** [_remove_self] asks the client to remove the pool exactly when both
    sets are empty. *)
Lemma remove_self_calls_remove_pool p w P :
  pools w !! p = Some P ->
  _remove_self p ObjClient w
  = if bool_decide (_available_connections P = ∅)
       && bool_decide (_concurrent_connections P = ∅)
    then remove_pool p w
    else (w, Ok tt).
Proof.
  intros HP. unfold _remove_self, bind, the_pool. rewrite HP.
  by destruct (_ && _).
Qed.

(** When the loop finds the pool, the key it stops at is one the pool is
    stored under. *)
Lemma remove_pool_scan_found pool items key0 :
  pool ∈ items.*2 ->
  exists k, remove_pool_scan pool items key0 = Some k ∧ (k, pool) ∈ items.
Proof.
  revert key0. induction items as [|[k q] items IH]; intros key0 Hin; simpl in *.
  - by apply elem_of_nil in Hin.
  - destruct (decide (pool = q)) as [->|Hne].
    + exists k. split; [done|]. apply list_elem_of_here.
    + apply elem_of_cons in Hin as [Heq|Hin]; [done|].
      destruct (IH (Some k) Hin) as (k' & Hscan & Hk').
      exists k'. split; [done|]. by apply list_elem_of_further.
Qed.

(** When the loop does not find the pool, it ends on the last key of the
    registry. *)
Lemma remove_pool_scan_missed pool items key0 :
  pool ∉ items.*2 ->
  remove_pool_scan pool items key0 = last (key0 :: (Some <$> items.*1)) ≫= id.
Proof.
  revert key0. induction items as [|[k q] items IH]; intros key0 Hin; simpl in *.
  - done.
  - apply not_elem_of_cons in Hin as [Hne Hin].
    destruct (decide (pool = q)) as [->|_]; [done|].
    rewrite (IH (Some k) Hin). by destruct items.
Qed.

(** C6 at a failing input: pool [1], whose sets are empty, is not in the
    registry (it was removed before); [_remove_self] calls [remove_pool]
    with it and the registration of pool [0] is what disappears. *)
Theorem remove_pool_removes_another_pool :
  dict_get ("h", 0) (connection_pools (client Examples.deregistered_world)) = Some 0%nat
  ∧ connection_pools
      (client (fst (_remove_self 1%nat ObjClient Examples.deregistered_world))) = [].
Proof. split; reflexivity. Qed.

(** ** C7: the 101 upgrade *)

Section UpgradeRelease.

Variable can_reuse_connection : Connection -> option Consumer -> bool.

(** A response whose [release_connection] flag is false is not released by
    the [post_request] handler of the pool. *)
Lemma release_response_suppressed p response w R :
  consumers w !! response = Some R ->
  cons_release_connection R = Some false ->
  _release_response can_reuse_connection p response w = (w, Ok tt).
Proof.
  intros HR Hflag. unfold _release_response, bind, the_consumer.
  by rewrite HR, Hflag.
Qed.

End UpgradeRelease.

(** The sibling path, [Client.upgrade], clears the flag before it finishes
    the consumer: the connection stays out of the available set. *)
Lemma client_upgrade_keeps_connection :
  let w' := fst (upgrade Client_can_reuse_connection 0%nat (WebSocketFactory 0%nat)
                   Examples.handshake_world) in
  ¬ in_available w' 0%nat 0%nat
  ∧ in_concurrent w' 0%nat 0%nat
  ∧ (cons_finished <$> consumers w' !! 0%nat) = Some true
  ∧ (cons_release_connection <$> consumers w' !! 0%nat) = Some (Some false).
Proof.
  repeat split; try (vm_compute; reflexivity).
  vm_compute. discriminate.
Qed.

(** C7 at a failing input: [handle_101] upgrades the connection itself and
    finishes the response; the flag is never cleared, the [post_request]
    handler of the pool releases the connection, and the available set
    gains it. *)
Theorem handle_101_releases_connection :
  let w' := fst (handle_101 Client_can_reuse_connection 0%nat false
                   Examples.handshake_world) in
  (cons_finished <$> consumers w' !! 0%nat) = Some true
  ∧ (cons_release_connection <$> consumers w' !! 0%nat) = Some None
  ∧ ¬ in_available Examples.handshake_world 0%nat 0%nat
  ∧ in_available w' 0%nat 0%nat.
Proof.
  repeat split; try (vm_compute; reflexivity).
  vm_compute. discriminate.
Qed.

(** ** C8: the two firings of the tunneling plugin *)

(** C8: on its first [pre_request] firing for a request with a tunnel and a
    transport that is not TLS, [Tunneling.__call__] sets [_apply_tunnel] on
    the request and binds itself again to [pre_request], and changes nothing
    else; on the second firing it substitutes the tunnel request for the
    response's request and binds its [on_headers] continuation. *)
Theorem tunneling_two_firings
        (s : TState) (rq tunnel : request_ref) (request : TRequest) :
  _request (tresponse s) = Some rq ->
  requests s !! rq = Some request ->
  _tunnel request = Some tunnel ->
  default false (_apply_tunnel request) = false ->
  transport_is_tls (tresponse s) = false ->
  let armed :=
    mkTState (<[rq := mkTRequest (Some tunnel) (Some true)]> (requests s))
      (mkTResponse (Some rq) (pre_request (tresponse s) ++ [Tunneling_self])
         (on_headers (tresponse s)) false) in
  Tunneling_call s = (armed, Ok tt)
  ∧ Tunneling_call armed
    = (mkTState (requests armed)
         (mkTResponse (Some tunnel) (pre_request (tresponse armed))
            (on_headers (tresponse s) ++ [Tunneling_on_headers_handler]) false),
       Ok tt).
Proof.
  intros Hreq Hrq Htunnel Hflag Htls armed. split.
  - unfold Tunneling_call, bind, get, the_request. rewrite Hreq, Hrq, Htunnel, Hflag.
    unfold set_apply_tunnel, bind_pre_request, modify. simpl.
    rewrite Hrq, Hreq, Htunnel, Htls. reflexivity.
  - unfold Tunneling_call, bind, get, the_request. simpl.
    rewrite lookup_insert_eq. simpl. reflexivity.
Qed.

Lemma tunneling_two_firings_witness :
  let armed :=
    mkTState (<[0%nat := mkTRequest (Some 1%nat) (Some true)]>
                (requests Examples.tunnel_state))
      (mkTResponse (Some 0%nat)
         (pre_request (tresponse Examples.tunnel_state) ++ [Tunneling_self])
         (on_headers (tresponse Examples.tunnel_state)) false) in
  Tunneling_call Examples.tunnel_state = (armed, Ok tt)
  ∧ Tunneling_call armed
    = (mkTState (requests armed)
         (mkTResponse (Some 1%nat) (pre_request (tresponse armed))
            (on_headers (tresponse Examples.tunnel_state)
               ++ [Tunneling_on_headers_handler]) false),
       Ok tt).
Proof.
  apply (tunneling_two_firings Examples.tunnel_state 0%nat 1%nat
           (mkTRequest (Some 1%nat) None)); reflexivity.
Defined.

(** ** C9 and C4: redirects *)

Section RedirectFacts.

Variable REDIRECT_CODES : list Z.
Variable urlparse : string -> result parsed_url.
Variable urljoin : string -> string -> result string.
Variable requote_uri : string -> result string.

Local Abbreviation resolve := (redirect_url urlparse urljoin requote_uri).
Local Abbreviation do_redirect := (_do_redirect urlparse urljoin requote_uri).
Local Abbreviation run := (exchange REDIRECT_CODES urlparse urljoin requote_uri).

(** An exception raised while the location is resolved leaves
    [_do_redirect]. *)
Lemma do_redirect_url_failure (response : HttpResponse) location e :
  headers response !! "location" = Some location ->
  resolve (request response) location = Raise e ->
  do_redirect response = Raise e.
Proof. intros Hloc Hurl. unfold _do_redirect. by rewrite Hloc, Hurl. Qed.

(** The two ways out of [_do_redirect] once the location is resolved. *)
Lemma do_redirect_cases (response : HttpResponse) location url :
  headers response !! "location" = Some location ->
  resolve (request response) location = Ok url ->
  let h := history (request response) in
  (history_truthy h && (max_redirects (request response) <=? history_len h) = true
   ∧ do_redirect response = Raise (TooManyRedirects (resp_id response)))
  ∨ (history_truthy h && (max_redirects (request response) <=? history_len h) = false
     ∧ exists again,
         do_redirect response = Ok again
         ∧ ra_url again = url
         ∧ ra_params again !! "history" = Some (VHistory (next_history response))).
Proof.
  intros Hloc Hurl h. unfold _do_redirect. rewrite Hloc, Hurl. fold h.
  destruct (history_truthy h && _) eqn:Hcmp; [left; done|right].
  split; [done|].
  assert ((if history_truthy h then default [] h else []) = default [] h) as ->.
  { by destruct h as [[|]|]. }
  destruct (status_code response =? 303); eexists; (split; [reflexivity|]); simpl;
    (split; [done|]).
  - rewrite !lookup_delete_ne by done. by rewrite lookup_insert_eq.
  - by rewrite lookup_insert_eq.
Qed.

Lemma handle_redirect_location (response : HttpResponse) exc :
  handle_redirect REDIRECT_CODES response exc = true ->
  is_Some (headers response !! "location").
Proof.
  unfold handle_redirect. intros H.
  apply andb_prop in H as [_ H]. apply andb_prop in H as [H _].
  apply andb_prop in H as [_ H]. by apply bool_decide_eq_true in H.
Qed.

(** With [k] responses in the history of a request that allows [m >= 1]
    redirects, the request ends after at most [m - k + 1] further
    exchanges. *)
Lemma exchange_bound fuel (srv : server) n (req : HttpRequest) :
  1 <= max_redirects req ->
  history_len (history req) <= max_redirects req ->
  (Z.to_nat (max_redirects req - history_len (history req)) + 1 <= fuel)%nat ->
  exists k, exchanges_of (run fuel srv n req) = Some k
            ∧ Z.of_nat k <= Z.of_nat n + (max_redirects req - history_len (history req)) + 1.
Proof.
  revert n req. induction fuel as [|fuel IH]; intros n req Hm Hk Hfuel; [lia|].
  simpl. destruct (srv n req) as [status hdrs].
  set (response := mkHttpResponse n status hdrs req).
  destruct (handle_redirect REDIRECT_CODES response false) eqn:Hredirect.
  - destruct (handle_redirect_location response false Hredirect) as [location Hloc].
    destruct (resolve (request response) location) as [url|e] eqn:Hurl.
    2:{ rewrite (do_redirect_url_failure response location e Hloc Hurl).
        simpl. exists (Datatypes.S n). split; [done|lia]. }
    destruct (do_redirect_cases response location url Hloc Hurl)
      as [[_ ->]|(Hcmp & again & -> & _ & Hhist)].
    + simpl. exists (Datatypes.S n). split; [done|lia].
    + simpl in Hcmp.
      assert (history_len (history req) + 1 <= max_redirects req) as Hnext.
      { apply andb_false_iff in Hcmp as [Hfalsy|Hlt].
        - assert (history_len (history req) = 0) as ->; [|lia].
          by destruct (history req) as [[|]|].
        - apply Z.leb_gt in Hlt. lia. }
      assert (history_len (history (redispatch req again))
              = history_len (history req) + 1) as Hlen.
      { unfold redispatch. simpl. rewrite Hhist. unfold next_history, history_len.
        simpl. rewrite length_app. simpl. lia. }
      destruct (IH (Datatypes.S n) (redispatch req again)) as (k & Hex & Hle).
      * done.
      * rewrite Hlen. simpl. lia.
      * rewrite Hlen. simpl. lia.
      * exists k. split; [done|]. rewrite Hlen in Hle. simpl in Hle. lia.
  - simpl. exists (Datatypes.S n). split; [done|lia].
Qed.

(** A request whose history is longer than [max_redirects >= 1] already
    ends at its first exchange. *)
Lemma exchange_overdrawn fuel (srv : server) n (req : HttpRequest) :
  1 <= max_redirects req ->
  max_redirects req < history_len (history req) ->
  exchanges_of (run (Datatypes.S fuel) srv n req) = Some (Datatypes.S n).
Proof.
  intros Hm Hk. simpl. destruct (srv n req) as [status hdrs].
  set (response := mkHttpResponse n status hdrs req).
  destruct (handle_redirect REDIRECT_CODES response false) eqn:Hredirect; [|done].
  destruct (handle_redirect_location response false Hredirect) as [location Hloc].
  destruct (resolve (request response) location) as [url|e] eqn:Hurl.
  2:{ by rewrite (do_redirect_url_failure response location e Hloc Hurl). }
  destruct (do_redirect_cases response location url Hloc Hurl)
    as [[_ ->]|(Hcmp & _)]; [done|].
  simpl in Hcmp. apply andb_false_iff in Hcmp as [Hfalsy|Hlt].
  - assert (history_len (history req) = 0) as Hzero; [|lia].
    by destruct (history req) as [[|]|].
  - apply Z.leb_gt in Hlt. lia.
Qed.

End RedirectFacts.

(** C9: for a response whose [location] header resolves to a URL and
    whose redirect the test on the history lets through, [_do_redirect]
    returns a [request_again] for that URL.  When the status is [303] its
    method is [GET] and its parameters hold neither [data] nor [files]; for
    any other status it has the method of the request and the [data] and
    [files] parameters as the request had them. *)
Theorem do_redirect_method_and_body
        (urlparse : string -> result parsed_url)
        (urljoin : string -> string -> result string)
        (requote_uri : string -> result string)
        (response : HttpResponse) (location url : string) :
  headers response !! "location" = Some location ->
  redirect_url urlparse urljoin requote_uri (request response) location = Ok url ->
  history_truthy (history (request response))
  && (max_redirects (request response) <=? history_len (history (request response)))
  = false ->
  exists again,
    _do_redirect urlparse urljoin requote_uri response = Ok again
    ∧ ra_url again = url
    ∧ (status_code response = 303 ->
         ra_method again = "GET"
         ∧ ra_params again !! "data" = None
         ∧ ra_params again !! "files" = None)
    ∧ (status_code response ≠ 303 ->
         ra_method again = method (request response)
         ∧ ra_params again !! "data" = inp_params (request response) !! "data"
         ∧ ra_params again !! "files" = inp_params (request response) !! "files").
Proof.
  intros Hloc Hurl Hcmp. unfold _do_redirect. rewrite Hloc, Hurl, Hcmp.
  destruct (status_code response =? 303) eqn:Hstatus;
    eexists; (split; [reflexivity|]); simpl; (split; [done|]).
  - split; [|intros Hne; apply Z.eqb_eq in Hstatus; contradiction].
    intros _. split; [done|]. split.
    + rewrite lookup_delete_ne by done. apply lookup_delete_eq.
    + apply lookup_delete_eq.
  - split; [intros Heq; apply Z.eqb_neq in Hstatus; contradiction|].
    intros _. split; [done|]. by rewrite !lookup_insert_ne.
Qed.

Lemma do_redirect_method_and_body_witness :
  (exists again,
     _do_redirect Examples.parse Examples.join Examples.requote Examples.see_other
     = Ok again
     ∧ ra_url again = "http://h/y"
     ∧ (status_code Examples.see_other = 303 ->
          ra_method again = "GET"
          ∧ ra_params again !! "data" = None
          ∧ ra_params again !! "files" = None)
     ∧ (status_code Examples.see_other ≠ 303 ->
          ra_method again = method (request Examples.see_other)
          ∧ ra_params again !! "data"
            = inp_params (request Examples.see_other) !! "data"
          ∧ ra_params again !! "files"
            = inp_params (request Examples.see_other) !! "files"))
  ∧ (exists again,
       _do_redirect Examples.parse Examples.join Examples.requote
         Examples.temporary_redirect = Ok again
       ∧ ra_url again = "http://h/y"
       ∧ (status_code Examples.temporary_redirect = 303 ->
            ra_method again = "GET"
            ∧ ra_params again !! "data" = None
            ∧ ra_params again !! "files" = None)
       ∧ (status_code Examples.temporary_redirect ≠ 303 ->
            ra_method again = method (request Examples.temporary_redirect)
            ∧ ra_params again !! "data"
              = inp_params (request Examples.temporary_redirect) !! "data"
            ∧ ra_params again !! "files"
              = inp_params (request Examples.temporary_redirect) !! "files")).
Proof.
  split.
  - apply (do_redirect_method_and_body Examples.parse Examples.join Examples.requote
             Examples.see_other "/y" "http://h/y"); reflexivity.
  - apply (do_redirect_method_and_body Examples.parse Examples.join Examples.requote
             Examples.temporary_redirect "/y" "http://h/y"); reflexivity.
Defined.

(** The [307] of the example is redirected as a POST that still carries
    its body and its upload. *)
Lemma temporary_redirect_keeps_body :
  _do_redirect Examples.parse Examples.join Examples.requote Examples.temporary_redirect
  = Ok (mk_request_again "POST" "http://h/y"
          (<["history" := VHistory [0%nat]]> (inp_params Examples.post_request)))
  ∧ inp_params Examples.post_request !! "data" = Some (VStr "body")
  ∧ inp_params Examples.post_request !! "files" = Some (VStr "upload").
Proof. repeat split; vm_compute; reflexivity. Qed.

(** C4 at a failing input: a request that allows no redirect
    ([max_redirects = 0]) and has no history, answered with a redirect.
    The history with the response appended has one entry, more than
    [max_redirects]; [_do_redirect] raises nothing all the same and hands
    that history on, so the request is dispatched again and only its second
    exchange ends it, with [TooManyRedirects]: one exchange more than
    [max_redirects + 1]. *)
Theorem zero_max_redirects_is_redirected :
  max_redirects (request Examples.first_found)
  < Z.of_nat (length (next_history Examples.first_found))
  ∧ _do_redirect Examples.parse Examples.join Examples.requote Examples.first_found
    = Ok (mk_request_again "GET" "http://h/b"
            {[ "history" := VHistory (next_history Examples.first_found) ]})
  ∧ exchange Examples.codes Examples.parse Examples.join Examples.requote 5
      Examples.always_redirect 0 Examples.no_redirect_request
    = Failed (TooManyRedirects 1) 2
  ∧ ¬ within_redirect_bound
        (exchange Examples.codes Examples.parse Examples.join Examples.requote 5
           Examples.always_redirect 0 Examples.no_redirect_request)
        (max_redirects Examples.no_redirect_request).
Proof.
  split; [simpl; lia|]. split; [vm_compute; reflexivity|].
  assert (exchange Examples.codes Examples.parse Examples.join Examples.requote 5
            Examples.always_redirect 0 Examples.no_redirect_request
          = Failed (TooManyRedirects 1) 2) as Hex by (vm_compute; reflexivity).
  split; [exact Hex|].
  unfold within_redirect_bound. rewrite Hex. simpl. lia.
Qed.

(** ** C10: the single consumer of a SingleClient *)

(** A consumer that [new_request] accepted is in the store afterwards. *)
Lemma new_request_keeps_consumer k r w :
  wp (new_request k r) (fun _ w' => is_Some (consumers w' !! k)) (fun _ _ => True) w.
Proof.
  unfold new_request. apply wp_bind, wp_the_consumer.
  destruct (consumers w !! k) as [C|] eqn:HC; [|done].
  apply wp_bind. eapply wp_update_consumer; [exact HC|].
  apply wp_modify. simpl. rewrite lookup_insert_eq. by eexists.
Qed.

Lemma response_returns_consumer picks request w :
  wp (response picks request) (fun k w' => is_Some (consumers w' !! k))
     (fun _ _ => True) w.
Proof.
  unfold response. apply wp_bind.
  eapply wp_mono; [apply wp_trivial| |done]. intros conn w1 _.
  apply wp_bind. eapply wp_mono; [apply wp_trivial| |done]. intros k w2 _.
  apply wp_bind. eapply wp_mono; [apply new_request_keeps_consumer| |done].
  intros ? w3 Hk. apply wp_bind, wp_Client_get_event_loop. intros l Hl.
  apply wp_bind, wp_get, wp_bind.
  destruct (force_sync _); [apply wp_modify|apply wp_ret]; by apply wp_ret.
Qed.

(** The first call records the consumer it returns. *)
Lemma single_client_first_call picks request w w1 k :
  sc_consumer (client w) = None ->
  SingleClient_response picks request w = (w1, Ok k) ->
  sc_consumer (client w1) = Some k ∧ is_Some (consumers w1 !! k).
Proof.
  intros Hnone. unfold SingleClient_response, bind at 1, get. rewrite Hnone.
  pose proof (response_returns_consumer picks request w) as Hwp.
  unfold bind, wp in *.
  destruct (response picks request w) as [w' [k'|e]]; [|discriminate].
  simpl. by intros [= <- <-].
Qed.

(** A later call hands the request to the recorded consumer and touches
    nothing else. *)
Lemma single_client_later_call picks request w k C :
  sc_consumer (client w) = Some k ->
  consumers w !! k = Some C ->
  SingleClient_response picks request w
  = (log (NewRequest k (Some request))
       (set_consumers (insert k (set_request (Some request) C)) w), Ok k).
Proof.
  intros Hk HC. unfold SingleClient_response, bind at 1, get. rewrite Hk.
  unfold new_request, bind, the_consumer, update_consumer, modify, set_consumers, ret.
  rewrite HC. simpl. by rewrite HC.
Qed.

(** C10: once a first call to [SingleClient.response] has returned a
    consumer, every later call returns that same consumer and hands it the
    new request through [new_request]; no pool and no connection is touched
    and no connect is started. *)
Theorem single_client_reuses_consumer
        (picks : nat -> nat) (request : Request) (w w1 : World) (k : consumer_id)
        (calls : list ((nat -> nat) * Request)) :
  sc_consumer (client w) = None ->
  SingleClient_response picks request w = (w1, Ok k) ->
  let (w2, results) := SingleClient_responses calls w1 in
  results = (fun _ => Ok k) <$> calls
  ∧ trace w2 = trace w1 ++ ((fun call => NewRequest k (Some call.2)) <$> calls)
  ∧ pools w2 = pools w1
  ∧ conns w2 = conns w1
  ∧ client w2 = client w1.
Proof.
  intros Hnone Hfirst.
  destruct (single_client_first_call _ _ _ _ _ Hnone Hfirst) as [Hk Hsome].
  clear Hnone Hfirst. revert w1 Hk Hsome.
  induction calls as [|[picks' request'] calls IH]; intros w1 Hk [C HC]; simpl.
  - by rewrite app_nil_r.
  - rewrite (single_client_later_call picks' request' w1 k C Hk HC).
    set (w1' := log _ _).
    specialize (IH w1'). destruct (SingleClient_responses calls w1') as [w2 results].
    destruct IH as (-> & -> & -> & -> & ->).
    + exact Hk.
    + simpl. rewrite lookup_insert_eq. by eexists.
    + simpl. by rewrite <- app_assoc.
Qed.

Lemma single_client_reuses_consumer_witness :
  let w1 := fst (SingleClient_response Examples.first_pick (mkRequest "h" 0)
                   (World_init Examples.a_client)) in
  let (w2, results) :=
    SingleClient_responses
      [(Examples.first_pick, mkRequest "h" 1); (Examples.first_pick, mkRequest "g" 0)]
      w1 in
  results = (fun _ => Ok 0%nat)
              <$> [(Examples.first_pick, mkRequest "h" 1);
                   (Examples.first_pick, mkRequest "g" 0)]
  ∧ trace w2 = trace w1
               ++ ((fun call => NewRequest 0%nat (Some call.2))
                     <$> [(Examples.first_pick, mkRequest "h" 1);
                          (Examples.first_pick, mkRequest "g" 0)])
  ∧ pools w2 = pools w1
  ∧ conns w2 = conns w1
  ∧ client w2 = client w1.
Proof.
  apply (single_client_reuses_consumer Examples.first_pick (mkRequest "h" 0)
           (World_init Examples.a_client)
           (fst (SingleClient_response Examples.first_pick (mkRequest "h" 0)
                   (World_init Examples.a_client)))
           0%nat
           [(Examples.first_pick, mkRequest "h" 1); (Examples.first_pick, mkRequest "g" 0)]).
  - reflexivity.
  - vm_compute. reflexivity.
Defined.

(** * Further properties of the pool and the client *)

(** ** Draining and acquiring *)

Lemma closes_only_refl w : closes_only w w.
Proof. intros c. by left. Qed.

Lemma closes_only_trans w1 w2 w3 :
  closes_only w1 w2 -> closes_only w2 w3 -> closes_only w1 w3.
Proof.
  intros H12 H23 c. destruct (H12 c) as [E12|E12], (H23 c) as [E23|E23];
    rewrite E23, E12; auto.
  right. by destruct (conns w1 !! c).
Qed.

Lemma closes_only_dom w w' : closes_only w w' -> dom (conns w') = dom (conns w).
Proof.
  intros H. apply set_eq. intros c. rewrite !elem_of_dom.
  destruct (H c) as [->| ->]; [done|].
  by rewrite fmap_is_Some.
Qed.

Lemma closes_only_stale w w' c C :
  closes_only w w' -> conns w !! c = Some C ->
  exists C', conns w' !! c = Some C'
             ∧ conn_stale C' = conn_stale C
             ∧ conn_producer C' = conn_producer C
             ∧ (conn_closed C = true -> conn_closed C' = true).
Proof.
  intros H HC. destruct (H c) as [E|E]; rewrite E, HC; simpl; eauto.
Qed.

Lemma set_available_const A P :
  _available_connections P = A -> set_available (fun _ => A) P = P.
Proof. intros <-. by destruct P. Qed.

(** The loop, run on the whole available set, either finds a connection
    that is not stale or drains the set. *)
Lemma reserve_drains n picks i p w P :
  pools w !! p = Some P ->
  n = size (_available_connections P) ->
  _available_connections P ⊆ dom (conns w) ->
  wp (reserve n picks i p)
     (fun c w' => exists rest,
        drained p P rest (Some c) w w'
        ∧ c ∈ _available_connections P ∧ c ∉ rest
        ∧ exists C, conns w' !! c = Some C ∧ conn_stale C = false)
     (fun e w' => e = KeyError ∧ drained p P ∅ None w w') w.
Proof.
  revert i w P. induction n as [|n IH]; intros i w P HP Hn Hdom; simpl.
  - apply wp_raise. split; [done|].
    symmetry in Hn. apply size_empty_inv, leibniz_equiv in Hn.
    repeat split.
    + rewrite (set_available_const ∅ P Hn). by rewrite insert_id.
    + set_solver.
    + apply closes_only_refl.
    + exists []. simpl. by rewrite app_nil_r.
    + intros c Hc. rewrite Hn in Hc. set_solver.
  - apply wp_bind. unfold pop_available.
    apply wp_bind, wp_the_pool. rewrite HP.
    destruct (set_pop (picks i) (_available_connections P)) as [[c rest1]|] eqn:Hpop.
    2:{ apply set_pop_None in Hpop. rewrite Hpop, size_empty in Hn. discriminate. }
    pose proof (set_pop_size _ _ _ _ Hpop) as Hsize.
    apply set_pop_Some in Hpop as [Hc ->].
    apply wp_bind. eapply wp_update_pool; [exact HP|]. apply wp_ret.
    set (P1 := set_available (fun _ => _available_connections P ∖ {[c]}) P).
    set (w1 := set_pools (insert p P1) w).
    assert (is_Some (conns w !! c)) as [C HC] by (apply elem_of_dom; set_solver).
    apply wp_bind, wp_the_conn. simpl. rewrite HC.
    apply wp_bind.
    destruct (conn_stale C) eqn:Hstale; simpl.
    + (* stale: close it if need be, and go on *)
      assert (forall w2,
                pools w2 = pools w1 -> closes_only w w2 ->
                consumers w2 = consumers w -> client w2 = client w ->
                (exists closed, trace w2 = trace w ++ (TransportClose <$> closed)) ->
                (exists C2, conns w2 !! c = Some C2
                            ∧ conn_stale C2 = true ∧ conn_closed C2 = true) ->
                wp (reserve n picks (Datatypes.S i) p)
                   (fun c0 w' => exists rest,
                      drained p P rest (Some c0) w w'
                      ∧ c0 ∈ _available_connections P ∧ c0 ∉ rest
                      ∧ exists C0, conns w' !! c0 = Some C0 ∧ conn_stale C0 = false)
                   (fun e w' => e = KeyError ∧ drained p P ∅ None w w') w2) as Hnext.
      { intros w2 Hp2 Hclo2 Hcons2 Hcl2 [closed2 Htr2] (C2 & HC2 & Hst2 & Hcd2).
        assert (pools w2 !! p = Some P1) as HP2.
        { rewrite Hp2. simpl. apply lookup_insert_eq. }
        assert (forall rest k w',
                  drained p P1 rest k w2 w' -> Some c ≠ k ->
                  drained p P rest k w w') as Hcompose.
        { intros rest k w' (Hp' & Hsub & Hclo' & Hcons' & Hcl' & [closed' Htr'] & Hall) Hk.
          repeat split.
          - rewrite Hp', Hp2. simpl. by rewrite insert_insert_eq.
          - simpl in Hsub. set_solver.
          - by apply closes_only_trans with w2.
          - by rewrite Hcons'.
          - by rewrite Hcl'.
          - exists (closed2 ++ closed'). rewrite Htr', Htr2, fmap_app. by rewrite app_assoc.
          - intros c' Hc' Hnr Hne.
            destruct (decide (c' = c)) as [->|Hneq].
            + destruct (closes_only_stale w2 w' c C2 Hclo' HC2) as (C' & HC' & Hs' & _ & Hd').
              exists C'. split; [done|]. split; [congruence|auto].
            + apply Hall; [simpl; set_solver|done|done]. }
        eapply wp_mono.
        - apply (IH _ w2 P1 HP2).
          + simpl. lia.
          + simpl. rewrite (closes_only_dom w w2 Hclo2). set_solver.
        - intros c0 w' (rest & Hdr & Hc0 & Hnr & HC0).
          exists rest. simpl in Hc0. split; [|split; [set_solver|split; [done|done]]].
          apply Hcompose; [done|]. intros [= ->]. set_solver.
        - intros e w' [-> Hdr]. split; [done|]. by apply Hcompose. }
      destruct (conn_closed C) eqn:Hclosed; simpl.
      * apply wp_ret, Hnext; try done.
        -- intros c'. by left.
        -- exists []. simpl. by rewrite app_nil_r.
        -- exists C. repeat split; [exact HC|done|done].
      * unfold transport_close, update_conn.
        apply wp_bind, wp_modify, wp_modify.
        unfold set_conns at 1. simpl. rewrite HC.
        apply Hnext; simpl; try done.
        -- intros c'. simpl. destruct (decide (c' = c)) as [->|Hne].
           ++ right. by rewrite lookup_insert_eq, HC.
           ++ left. by rewrite lookup_insert_ne.
        -- by exists [c].
        -- exists (mark_closed C). by rewrite lookup_insert_eq.
    + (* not stale: this is the connection *)
      apply wp_ret, wp_ret.
      exists (_available_connections P ∖ {[c]}). repeat split; try done.
      * set_solver.
      * intros c'. by left.
      * exists []. simpl. by rewrite app_nil_r.
      * intros c' Hc' Hnr Hne. exfalso. apply Hne. f_equal.
        apply dec_stable. set_solver.
      * set_solver.
      * exists C. simpl. by rewrite HC.
Qed.

Lemma get_or_create_connection_spec picks p producer w P :
  pools w !! p = Some P ->
  _available_connections P ⊆ dom (conns w) ->
  wp (get_or_create_connection picks p producer)
     (fun a w' =>
        match a with
        | Ready c =>
            exists rest w1,
              drained p P rest (Some c) w w1
              ∧ c ∈ _available_connections P ∧ c ∉ rest
              ∧ (exists C, conns w1 !! c = Some C ∧ conn_stale C = false)
              ∧ w' = set_pools
                       (insert p (set_concurrent (fun s => {[c]} ∪ s)
                                    (set_available (fun _ => rest) P))) w1
        | Pending c =>
            exists w1,
              drained p P ∅ None w w1
              ∧ c = fresh (dom (conns w1))
              ∧ conns w' = <[c := mkConnection producer false false None
                                    ClientConsumerFactory
                                    [H_release_response p] [H_try_reconnect p c]]>
                             (conns w1)
              ∧ pools w' = pools w1
              ∧ consumers w' = consumers w1
              ∧ producer = ObjClient
              ∧ client w' = with_event_loop (client w1)
              ∧ (exists l, snd (get_event_loop (client_loop (client w1))) = Ok l
                           ∧ trace w' = trace w1 ++ [TransportConnect c l])
        end)
     (fun e w' =>
        exists w1,
          drained p P ∅ None w w1
          ∧ ((e = TooManyConnections ∧ w' = w1)
             ∨ (e = AttributeError "get_event_loop"
                ∧ producer ≠ ObjClient
                ∧ conns w' = <[fresh (dom (conns w1)) :=
                                 mkConnection producer false false None
                                   ClientConsumerFactory
                                   [H_release_response p]
                                   [H_try_reconnect p (fresh (dom (conns w1)))]]>
                               (conns w1)
                ∧ pools w' = pools w1
                ∧ consumers w' = consumers w1
                ∧ client w' = client w1
                ∧ trace w' = trace w1))) w.
Proof.
  intros HP Hdom. unfold get_or_create_connection.
  apply wp_bind, wp_the_pool. rewrite HP.
  apply wp_bind, wp_try_except_else.
  eapply wp_mono; [by apply (reserve_drains _ picks 0%nat p w P)| |].
  - intros c w1 (rest & Hdr & Hc & Hnr & HC).
    pose proof Hdr as (Hp1 & _).
    apply wp_bind. eapply wp_update_pool.
    { rewrite Hp1. apply lookup_insert_eq. }
    apply wp_ret, wp_ret. exists rest, w1.
    split; [exact Hdr|]. split; [done|]. split; [done|]. split; [exact HC|done].
  - intros e w1 [-> Hdr]. simpl. apply wp_ret.
    pose proof Hdr as (Hp1 & _).
    unfold new_connection.
    apply wp_bind, wp_bind, wp_the_pool. rewrite Hp1, lookup_insert_eq.
    destruct (_ <=? _); [apply wp_raise; exists w1; split; [done|]; by left|].
    apply wp_bind, wp_get, wp_bind, wp_modify, wp_ret.
    set (c := fresh (dom (conns w1))).
    apply wp_bind. eapply wp_update_conn; [simpl; apply lookup_insert_eq|].
    apply wp_bind. eapply wp_update_conn; [simpl; apply lookup_insert_eq|].
    apply wp_bind. destruct producer as [|q].
    + apply wp_Client_get_event_loop. intros l Hl.
      apply wp_bind, wp_modify, wp_ret.
      exists w1. split; [done|]. split; [done|]. simpl.
      rewrite !insert_insert_eq. repeat split; try done. by exists l.
    + apply wp_raise. exists w1. split; [done|]. right. simpl.
      by rewrite !insert_insert_eq.
Qed.

Lemma drained_available p P rest kept w w' c :
  drained p P rest kept w w' ->
  (in_available w' p c <-> c ∈ rest)
  ∧ (in_concurrent w' p c <-> c ∈ _concurrent_connections P).
Proof.
  intros (Hp & _). unfold in_available, in_concurrent.
  by rewrite Hp, lookup_insert_eq.
Qed.

(** X1: a connection that [get_or_create_connection] hands out from the
    pool was available, is not stale, and has moved from the available to
    the concurrent set; no connection is created for it. *)
Theorem acquired_connection_is_live
        (picks : nat -> nat) (p : pool_id) (client : obj)
        (w w' : World) (P : Pool) (c : conn_id) :
  pools w !! p = Some P ->
  _available_connections P ⊆ dom (conns w) ->
  get_or_create_connection picks p client w = (w', Ok (Ready c)) ->
  c ∈ _available_connections P
  ∧ in_concurrent w' p c
  ∧ ¬ in_available w' p c
  ∧ (exists C, conns w' !! c = Some C ∧ conn_stale C = false)
  ∧ dom (conns w') = dom (conns w).
Proof.
  intros HP Hdom Hrun.
  pose proof (get_or_create_connection_spec picks p client w P HP Hdom) as Hspec.
  unfold wp in Hspec. rewrite Hrun in Hspec.
  destruct Hspec as (rest & w1 & Hdr & Hc & Hnr & HC & ->).
  destruct Hdr as (Hp1 & _ & Hclo & _).
  split; [done|]. unfold in_concurrent, in_available. simpl.
  rewrite lookup_insert_eq. simpl.
  split; [set_solver|]. split; [done|]. split; [done|].
  by apply closes_only_dom.
Qed.

Lemma acquired_connection_is_live_witness :
  1%nat ∈ _available_connections Examples.idle_pool
  ∧ in_concurrent
      (fst (get_or_create_connection Examples.first_pick 0%nat ObjClient
              Examples.idle_world)) 0%nat 1%nat
  ∧ ¬ in_available
        (fst (get_or_create_connection Examples.first_pick 0%nat ObjClient
                Examples.idle_world)) 0%nat 1%nat
  ∧ (exists C,
       conns (fst (get_or_create_connection Examples.first_pick 0%nat ObjClient
                     Examples.idle_world)) !! 1%nat = Some C
       ∧ conn_stale C = false)
  ∧ dom (conns (fst (get_or_create_connection Examples.first_pick 0%nat ObjClient
                       Examples.idle_world)))
    = dom (conns Examples.idle_world).
Proof.
  apply (acquired_connection_is_live Examples.first_pick 0%nat ObjClient
           Examples.idle_world _ Examples.idle_pool 1%nat).
  - reflexivity.
  - apply (bool_decide_unpack _). vm_compute. exact I.
  - vm_compute. reflexivity.
Defined.

(** X2: every connection that [get_or_create_connection] takes out of the
    available set without handing it out was stale, and is closed when the
    call ends, whether the call returns a connection of the pool, starts a
    new one or raises. *)
Theorem drained_connections_are_closed
        (picks : nat -> nat) (p : pool_id) (client : obj)
        (w w' : World) (P : Pool) (r : result acquired) (c : conn_id) :
  pools w !! p = Some P ->
  _available_connections P ⊆ dom (conns w) ->
  get_or_create_connection picks p client w = (w', r) ->
  c ∈ _available_connections P ->
  ¬ in_available w' p c ->
  r ≠ Ok (Ready c) ->
  exists C, conns w' !! c = Some C ∧ conn_stale C = true ∧ conn_closed C = true.
Proof.
  intros HP Hdom Hrun Hc Hout Hne.
  pose proof (get_or_create_connection_spec picks p client w P HP Hdom) as Hspec.
  unfold wp in Hspec. rewrite Hrun in Hspec.
  destruct r as [[c0|c0]|e].
  - destruct Hspec as (rest & w1 & Hdr & Hc0 & Hnr & HC & ->).
    pose proof Hdr as (_ & _ & _ & _ & _ & _ & Hall).
    simpl. apply Hall; [done| |congruence].
    intros Hin. apply Hout. unfold in_available. simpl.
    by rewrite lookup_insert_eq.
  - destruct Hspec as (w1 & Hdr & Hfresh & Hconns & Hpools & _).
    pose proof Hdr as (_ & _ & _ & _ & _ & _ & Hall).
    destruct (Hall c) as (C & HC & Hs & Hd); [done|set_solver|done|].
    exists C. split; [|done]. rewrite Hconns, lookup_insert_ne; [done|].
    intros <-. rewrite Hfresh in HC.
    assert (fresh (dom (conns w1)) ∈ dom (conns w1)) as Hin
      by (apply elem_of_dom; eauto).
    by apply is_fresh in Hin.
  - destruct Hspec as (w1 & Hdr & [[_ Hw']|(_ & _ & Hconns & _)]).
    + subst w'. pose proof Hdr as (_ & _ & _ & _ & _ & _ & Hall).
      apply Hall; [done|set_solver|done].
    + pose proof Hdr as (_ & _ & _ & _ & _ & _ & Hall).
      destruct (Hall c) as (C & HC & Hs & Hd); [done|set_solver|done|].
      exists C. split; [|done]. rewrite Hconns, lookup_insert_ne; [done|].
      intros Heq. rewrite <- Heq in HC.
      assert (fresh (dom (conns w1)) ∈ dom (conns w1)) as Hin
        by (apply elem_of_dom; eauto).
      by apply is_fresh in Hin.
Qed.

Lemma drained_connections_are_closed_witness :
  exists C,
    conns (fst (get_or_create_connection Examples.stale_first 0%nat ObjClient
                  Examples.idle_world)) !! 0%nat = Some C
    ∧ conn_stale C = true ∧ conn_closed C = true.
Proof.
  apply (drained_connections_are_closed Examples.stale_first 0%nat ObjClient
           Examples.idle_world _ Examples.idle_pool (Ok (Ready 1%nat)) 0%nat).
  - reflexivity.
  - apply (bool_decide_unpack _). vm_compute. exact I.
  - vm_compute. reflexivity.
  - apply (bool_decide_unpack _). vm_compute. exact I.
  - vm_compute. discriminate.
  - discriminate.
Defined.

(** X3: [get_or_create_connection] starts a new connection only once the
    available set is empty.  The connection is a new object with the client
    given as its producer; the pool's [_release_response] is among its
    [post_request] handlers and [_try_reconnect], for this connection, among
    its [connection_lost] handlers; the concurrent set is as before, and the
    connect, on the loop that the client's [get_event_loop] returns, is the
    last call made. *)
Theorem new_connection_is_bound
        (picks : nat -> nat) (p : pool_id) (producer : obj)
        (w w' : World) (P : Pool) (c : conn_id) :
  pools w !! p = Some P ->
  _available_connections P ⊆ dom (conns w) ->
  get_or_create_connection picks p producer w = (w', Ok (Pending c)) ->
  conns w !! c = None
  ∧ (exists C, conns w' !! c = Some C
               ∧ conn_producer C = producer
               ∧ H_release_response p ∈ conn_post_request C
               ∧ H_try_reconnect p c ∈ conn_connection_lost C)
  ∧ (forall c', ¬ in_available w' p c')
  ∧ (forall c', in_concurrent w' p c' <-> c' ∈ _concurrent_connections P)
  ∧ (exists l, snd (get_event_loop (client_loop (client w))) = Ok l
               ∧ last (trace w') = Some (TransportConnect c l)).
Proof.
  intros HP Hdom Hrun.
  pose proof (get_or_create_connection_spec picks p producer w P HP Hdom) as Hspec.
  unfold wp in Hspec. rewrite Hrun in Hspec.
  destruct Hspec
    as (w1 & Hdr & Hfresh & Hconns & Hpools & _ & _ & _ & l & Hl & Htrace).
  pose proof Hdr as (Hp1 & _ & Hclo & _ & Hclient & _).
  split.
  { apply not_elem_of_dom. rewrite <- (closes_only_dom w w1 Hclo), Hfresh.
    apply is_fresh. }
  split.
  { eexists. rewrite Hconns, lookup_insert_eq. split; [reflexivity|]. simpl.
    split; [done|]. split; apply list_elem_of_here. }
  unfold in_available, in_concurrent. rewrite Hpools, Hp1, lookup_insert_eq. simpl.
  split; [set_solver|]. split; [done|].
  exists l. rewrite <- Hclient. split; [done|].
  rewrite Htrace. apply last_snoc.
Qed.

Lemma new_connection_is_bound_witness :
  conns Examples.fresh_world !! 0%nat = None
  ∧ (exists C,
       conns (fst (get_or_create_connection Examples.first_pick 0%nat ObjClient
                     Examples.fresh_world)) !! 0%nat = Some C
       ∧ conn_producer C = ObjClient
       ∧ H_release_response 0%nat ∈ conn_post_request C
       ∧ H_try_reconnect 0%nat 0%nat ∈ conn_connection_lost C)
  ∧ (forall c',
       ¬ in_available
           (fst (get_or_create_connection Examples.first_pick 0%nat ObjClient
                   Examples.fresh_world)) 0%nat c')
  ∧ (forall c',
       in_concurrent
         (fst (get_or_create_connection Examples.first_pick 0%nat ObjClient
                 Examples.fresh_world)) 0%nat c'
       <-> c' ∈ _concurrent_connections Examples.fresh_pool)
  ∧ (exists l,
       snd (get_event_loop (client_loop (client Examples.fresh_world))) = Ok l
       ∧ last (trace (fst (get_or_create_connection Examples.first_pick 0%nat
                             ObjClient Examples.fresh_world)))
         = Some (TransportConnect 0%nat l)).
Proof.
  apply (new_connection_is_bound Examples.first_pick 0%nat ObjClient
           Examples.fresh_world _ Examples.fresh_pool 0%nat).
  - reflexivity.
  - simpl. apply empty_subseteq.
  - vm_compute. reflexivity.
Defined.

(** ** Releasing, reusing and deregistering *)

Section ReleaseFacts.

Variable can_reuse_connection : Connection -> option Consumer -> bool.

(** The whole effect of a release: the pool, and the registry of the
    client when the pool has emptied. *)
Lemma release_connection_result w p P c C response R :
  pools w !! p = Some P ->
  conns w !! c = Some C ->
  conn_producer C = ObjClient ->
  the_response response w = (w, Ok R) ->
  release_connection can_reuse_connection p c response w
  = (mkWorld (conns w) (consumers w)
       (<[p := released_pool P c (can_reuse_connection C R)]> (pools w))
       (if pool_is_empty (released_pool P c (can_reuse_connection C R))
        then Client_remove_pool p (client w) else client w)
       (trace w),
     Ok tt).
Proof.
  intros HP HC Hprod HR.
  assert (forall w1, consumers w1 = consumers w ->
            the_response response w1 = (w1, Ok R)) as HR'.
  { intros w1 Hw1. revert HR. unfold the_response.
    destruct response as [r|]; [|by intros [= <-]].
    unfold bind, the_consumer. rewrite Hw1.
    destruct (consumers w !! r); simpl; [|discriminate]. by intros [= <-]. }
  unfold release_connection.
  unfold bind at 1, update_pool, modify, set_pools. simpl. rewrite HP.
  unfold bind at 1, the_conn. simpl. rewrite HC, Hprod.
  unfold bind at 1. unfold bind at 1. rewrite HR' by done. unfold ret at 1.
  unfold pool_is_empty, released_pool.
  destruct (can_reuse_connection C R).
  - unfold bind at 1, update_pool, modify, set_pools. simpl.
    rewrite lookup_insert_eq, insert_insert_eq.
    unfold _remove_self, bind, the_pool. simpl. rewrite lookup_insert_eq. simpl.
    by destruct (_ && _).
  - unfold bind at 1, ret.
    unfold _remove_self, bind, the_pool. simpl. rewrite lookup_insert_eq. simpl.
    by destruct (_ && _).
Qed.

End ReleaseFacts.

(** *** The registry as a dictionary *)

Lemma dict_get_elem k p (d : list (key * pool_id)) :
  dict_get k d = Some p -> (k, p) ∈ d.
Proof.
  induction d as [|[k' q] d IH]; simpl; [discriminate|].
  destruct (decide (k = k')) as [->|Hne].
  - intros [= ->]. apply list_elem_of_here.
  - intros H. apply list_elem_of_further, IH, H.
Qed.

Lemma dict_get_None k (d : list (key * pool_id)) :
  dict_get k d = None <-> k ∉ d.*1.
Proof.
  induction d as [|[k' q] d IH]; simpl.
  - split; [intros _; apply not_elem_of_nil|done].
  - destruct (decide (k = k')) as [->|Hne].
    + split; [discriminate|]. intros H. exfalso. apply H, list_elem_of_here.
    + rewrite IH, not_elem_of_cons. tauto.
Qed.

Lemma dict_get_unique k p (d : list (key * pool_id)) :
  NoDup d.*1 -> (k, p) ∈ d -> dict_get k d = Some p.
Proof.
  induction d as [|[k' q] d IH]; simpl; intros Hnd Hin.
  - by apply elem_of_nil in Hin.
  - apply NoDup_cons in Hnd as [Hk' Hnd].
    apply elem_of_cons in Hin as [[= <- <-]|Hin].
    + by rewrite decide_True.
    + destruct (decide (k = k')) as [->|Hne]; [|auto].
      exfalso. apply Hk'. apply list_elem_of_fmap. by exists (k', p).
Qed.

Lemma dict_get_pop_ne k k' (d : list (key * pool_id)) :
  k' ≠ k -> dict_get k' (dict_pop k d) = dict_get k' d.
Proof.
  intros Hne. induction d as [|[k0 q] d IH]; simpl; [done|].
  destruct (decide (k = k0)) as [->|Hk].
  - by rewrite decide_False.
  - simpl. by rewrite IH.
Qed.

Lemma dict_get_pop_eq k (d : list (key * pool_id)) :
  NoDup d.*1 -> dict_get k (dict_pop k d) = None.
Proof.
  induction d as [|[k0 q] d IH]; simpl; intros Hnd; [done|].
  apply NoDup_cons in Hnd as [Hk0 Hnd].
  destruct (decide (k = k0)) as [->|Hk].
  - by apply dict_get_None.
  - simpl. rewrite decide_False by done. auto.
Qed.

Lemma dict_pop_keys k (d : list (key * pool_id)) :
  NoDup d.*1 -> NoDup (dict_pop k d).*1.
Proof.
  induction d as [|[k0 q] d IH]; simpl; intros Hnd; [done|].
  apply NoDup_cons in Hnd as [Hk0 Hnd].
  destruct (decide (k = k0)) as [->|Hk]; [done|].
  simpl. apply NoDup_cons. split; [|auto].
  assert (dict_get k0 (dict_pop k d) = None) as E.
  { rewrite dict_get_pop_ne by done. by apply dict_get_None. }
  by apply dict_get_None in E.
Qed.

(** In a registry with one entry per key, the loop of [remove_pool] stops
    at the key of a pool that is stored under that key only. *)
Lemma remove_pool_scan_registered (d : list (key * pool_id)) (k : key) (p : pool_id) :
  NoDup d.*1 ->
  dict_get k d = Some p ->
  (forall k', dict_get k' d = Some p -> k' = k) ->
  remove_pool_scan p d None = Some k.
Proof.
  intros Hnd Hk Honly.
  destruct (remove_pool_scan_found p d None) as (k1 & Hscan & Hin).
  - apply list_elem_of_fmap. exists (k, p). split; [done|]. by apply dict_get_elem.
  - rewrite Hscan. f_equal. apply Honly. by apply dict_get_unique.
Qed.

(** X5: for a registry with one entry per key in which the pool is stored
    under the key [k] only, [remove_pool] takes that entry out and leaves
    every other registration, and every other attribute of the client, as it
    was. *)
Theorem remove_pool_deregisters (c : Client) (k : key) (p : pool_id) :
  NoDup (connection_pools c).*1 ->
  dict_get k (connection_pools c) = Some p ->
  (forall k', dict_get k' (connection_pools c) = Some p -> k' = k) ->
  Client_remove_pool p c = set_connection_pools (dict_pop k) c
  ∧ dict_get k (connection_pools (Client_remove_pool p c)) = None
  ∧ (forall k', k' ≠ k ->
       dict_get k' (connection_pools (Client_remove_pool p c))
       = dict_get k' (connection_pools c)).
Proof.
  intros Hnd Hk Honly.
  assert (Client_remove_pool p c = set_connection_pools (dict_pop k) c) as ->.
  { unfold Client_remove_pool.
    by rewrite (remove_pool_scan_registered _ k p Hnd Hk Honly). }
  split; [done|]. simpl. split.
  - by apply dict_get_pop_eq.
  - intros k' Hne. by apply dict_get_pop_ne.
Qed.

Lemma remove_pool_deregisters_witness :
  Client_remove_pool 0%nat (client Examples.fresh_world)
  = set_connection_pools (dict_pop ("h", 0)) (client Examples.fresh_world)
  ∧ dict_get ("h", 0)
      (connection_pools (Client_remove_pool 0%nat (client Examples.fresh_world))) = None
  ∧ (forall k', k' ≠ ("h", 0) ->
       dict_get k' (connection_pools (Client_remove_pool 0%nat (client Examples.fresh_world)))
       = dict_get k' (connection_pools (client Examples.fresh_world))).
Proof.
  apply (remove_pool_deregisters (client Examples.fresh_world) ("h", 0) 0%nat).
  - simpl. apply NoDup_singleton.
  - reflexivity.
  - intros k'. simpl. destruct (decide (k' = ("h", 0))) as [->|Hne].
    + reflexivity.
    + discriminate.
Defined.

Section ReuseFacts.

Variable can_reuse_connection : Connection -> option Consumer -> bool.

(** X4: a connection released for reuse to a pool with no other idle
    connection is the one the next [get_or_create_connection] returns,
    provided it has not gone stale: it comes back as a connection of the
    pool, in the concurrent set, and no connection is created. *)
Theorem released_connection_is_reused
        (picks : nat -> nat) (w : World) (p : pool_id) (P : Pool)
        (c : conn_id) (C : Connection)
        (response : option consumer_id) (R : option Consumer) :
  pools w !! p = Some P ->
  conns w !! c = Some C ->
  conn_producer C = ObjClient ->
  the_response response w = (w, Ok R) ->
  can_reuse_connection C R = true ->
  conn_stale C = false ->
  _available_connections P = ∅ ->
  exists w1 w2,
    release_connection can_reuse_connection p c response w = (w1, Ok tt)
    ∧ get_or_create_connection picks p ObjClient w1 = (w2, Ok (Ready c))
    ∧ in_concurrent w2 p c
    ∧ ¬ in_available w2 p c
    ∧ dom (conns w2) = dom (conns w).
Proof.
  intros HP HC Hprod HR Hreuse Hstale Hempty.
  rewrite (release_connection_result can_reuse_connection w p P c C response R)
    by done.
  rewrite Hreuse. set (w1 := mkWorld _ _ _ _ _).
  set (P1 := released_pool P c true).
  assert (pools w1 !! p = Some P1) as HP1 by apply lookup_insert_eq.
  assert (_available_connections P1 = {[c]}) as Hav1.
  { simpl. rewrite Hempty. set_solver. }
  assert (_available_connections P1 ⊆ dom (conns w1)) as Hdom1.
  { rewrite Hav1. simpl. apply singleton_subseteq_l, elem_of_dom. eauto. }
  destruct (get_or_create_connection picks p ObjClient w1) as [w2 r] eqn:Hrun.
  pose proof (get_or_create_connection_spec picks p ObjClient w1 P1 HP1 Hdom1) as Hspec.
  unfold wp in Hspec. rewrite Hrun in Hspec.
  assert (forall w', drained p P1 ∅ None w1 w' -> False) as Hnot.
  { intros w' (_ & _ & Hclo & _ & _ & _ & Hall).
    destruct (Hall c) as (C' & HC' & Hs' & _); [set_solver|set_solver|done|].
    destruct (closes_only_stale w1 w' c C Hclo HC) as (C'' & HC'' & Hs'' & _).
    congruence. }
  destruct r as [[c0|c0]|e].
  - destruct Hspec as (rest & w1' & Hdr & Hc0 & Hnr & _ & ->).
    assert (c0 = c) as -> by set_solver.
    exists w1, (set_pools
                  (insert p (set_concurrent (fun s => {[c]} ∪ s)
                               (set_available (fun _ => rest) P1))) w1').
    split; [done|]. split; [done|].
    unfold in_concurrent, in_available. simpl. rewrite lookup_insert_eq. simpl.
    split; [set_solver|]. split; [done|].
    destruct Hdr as (_ & _ & Hclo & _). by rewrite (closes_only_dom w1 w1' Hclo).
  - destruct Hspec as (w1' & Hdr & _). by destruct (Hnot w1').
  - destruct Hspec as (w1' & Hdr & _). by destruct (Hnot w1').
Qed.

(** X6: a release that keeps the connection for reuse never deregisters
    the pool: the client is left exactly as it was. *)
Theorem reusable_release_keeps_registration
        (w : World) (p : pool_id) (P : Pool) (c : conn_id) (C : Connection)
        (response : option consumer_id) (R : option Consumer) :
  pools w !! p = Some P ->
  conns w !! c = Some C ->
  conn_producer C = ObjClient ->
  the_response response w = (w, Ok R) ->
  can_reuse_connection C R = true ->
  client (fst (release_connection can_reuse_connection p c response w)) = client w.
Proof.
  intros HP HC Hprod HR Hreuse.
  rewrite (release_connection_result can_reuse_connection w p P c C response R)
    by done.
  rewrite Hreuse. simpl.
  assert (pool_is_empty (released_pool P c true) = false) as ->; [|done].
  unfold pool_is_empty. simpl.
  rewrite bool_decide_false; [done|]. set_solver.
Qed.

(** X7: when the connection released was the last one the pool held and
    it cannot be reused, the pool is taken out of the registry of the
    client: its key resolves to no pool any more, and every other
    registration is kept. *)
Theorem last_release_deregisters
        (w : World) (p : pool_id) (P : Pool) (c : conn_id) (C : Connection)
        (response : option consumer_id) (R : option Consumer) (k : key) :
  pools w !! p = Some P ->
  conns w !! c = Some C ->
  conn_producer C = ObjClient ->
  the_response response w = (w, Ok R) ->
  can_reuse_connection C R = false ->
  _available_connections P = ∅ ->
  _concurrent_connections P ⊆ {[c]} ->
  NoDup (connection_pools (client w)).*1 ->
  dict_get k (connection_pools (client w)) = Some p ->
  (forall k', dict_get k' (connection_pools (client w)) = Some p -> k' = k) ->
  exists w',
    release_connection can_reuse_connection p c response w = (w', Ok tt)
    ∧ dict_get k (connection_pools (client w')) = None
    ∧ (forall k', k' ≠ k ->
         dict_get k' (connection_pools (client w'))
         = dict_get k' (connection_pools (client w))).
Proof.
  intros HP HC Hprod HR Hreuse Hav Hconc Hnd Hk Honly.
  rewrite (release_connection_result can_reuse_connection w p P c C response R)
    by done.
  rewrite Hreuse.
  assert (pool_is_empty (released_pool P c false) = true) as ->.
  { unfold pool_is_empty. simpl.
    rewrite !bool_decide_true; [done|set_solver|done]. }
  eexists. split; [reflexivity|]. simpl.
  unfold Client_remove_pool.
  rewrite (remove_pool_scan_registered _ k p Hnd Hk Honly). simpl. split.
  - by apply dict_get_pop_eq.
  - intros k' Hne. by apply dict_get_pop_ne.
Qed.

End ReuseFacts.

Lemma released_connection_is_reused_witness :
  exists w1 w2,
    release_connection Client_can_reuse_connection 0%nat 0%nat None
      Examples.saturated_world = (w1, Ok tt)
    ∧ get_or_create_connection Examples.first_pick 0%nat ObjClient w1
      = (w2, Ok (Ready 0%nat))
    ∧ in_concurrent w2 0%nat 0%nat
    ∧ ¬ in_available w2 0%nat 0%nat
    ∧ dom (conns w2) = dom (conns Examples.saturated_world).
Proof.
  apply (released_connection_is_reused Client_can_reuse_connection
           Examples.first_pick Examples.saturated_world 0%nat
           Examples.saturated_pool 0%nat
           (mkConnection ObjClient false false None ClientConsumerFactory
              [H_release_response 0%nat] [H_try_reconnect 0%nat 0%nat])
           None None); reflexivity.
Defined.

Lemma reusable_release_keeps_registration_witness :
  client (fst (release_connection Client_can_reuse_connection 0%nat 0%nat None
                 Examples.closed_world))
  = client Examples.closed_world.
Proof.
  apply (reusable_release_keeps_registration Client_can_reuse_connection
           Examples.closed_world 0%nat Examples.busy_pool 0%nat
           Examples.closed_conn None None); reflexivity.
Defined.

Lemma last_release_deregisters_witness :
  exists w',
    release_connection (fun _ _ => false) 0%nat 0%nat None Examples.closed_world
    = (w', Ok tt)
    ∧ dict_get ("h", 0) (connection_pools (client w')) = None
    ∧ (forall k', k' ≠ ("h", 0) ->
         dict_get k' (connection_pools (client w'))
         = dict_get k' (connection_pools (client Examples.closed_world))).
Proof.
  apply (last_release_deregisters (fun _ _ => false)
           Examples.closed_world 0%nat Examples.busy_pool 0%nat
           Examples.closed_conn None None ("h", 0)).
  - reflexivity.
  - reflexivity.
  - reflexivity.
  - reflexivity.
  - reflexivity.
  - reflexivity.
  - reflexivity.
  - simpl. apply NoDup_singleton.
  - reflexivity.
  - intros k'. simpl. destruct (decide (k' = ("h", 0))) as [->|Hne].
    + reflexivity.
    + discriminate.
Defined.

(** ** What happens to the client *)

Section ClientFrame.

Variable c0 : Client.

Local Abbreviation kept := (fun w : World => client w = c0).

Lemma kept_bind {A B} (c : M World A) (k : A -> M World B) w :
  wp c (fun _ => kept) (fun _ => kept) w ->
  (forall a w', client w' = c0 -> wp (k a) (fun _ => kept) (fun _ => kept) w') ->
  wp (bind c k) (fun _ => kept) (fun _ => kept) w.
Proof.
  intros Hc Hk. apply wp_bind. eapply wp_mono; [exact Hc| |auto].
  intros a w' Hw'. by apply Hk.
Qed.

Lemma kept_the_pool p w :
  client w = c0 -> wp (the_pool p) (fun _ => kept) (fun _ => kept) w.
Proof. intros H. apply wp_the_pool. by destruct (pools w !! p). Qed.

Lemma kept_the_conn c w :
  client w = c0 -> wp (the_conn c) (fun _ => kept) (fun _ => kept) w.
Proof. intros H. apply wp_the_conn. by destruct (conns w !! c). Qed.

Lemma kept_the_consumer c w :
  client w = c0 -> wp (the_consumer c) (fun _ => kept) (fun _ => kept) w.
Proof. intros H. apply wp_the_consumer. by destruct (consumers w !! c). Qed.

Lemma kept_update_pool p f w :
  client w = c0 -> wp (update_pool p f) (fun _ => kept) (fun _ => kept) w.
Proof. intros H. by apply wp_modify. Qed.

Lemma kept_update_conn c f w :
  client w = c0 -> wp (update_conn c f) (fun _ => kept) (fun _ => kept) w.
Proof. intros H. by apply wp_modify. Qed.

Lemma kept_update_consumer c f w :
  client w = c0 -> wp (update_consumer c f) (fun _ => kept) (fun _ => kept) w.
Proof. intros H. by apply wp_modify. Qed.

Lemma kept_log e w :
  client w = c0 -> wp (modify (log e)) (fun _ => kept) (fun _ => kept) w.
Proof. intros H. by apply wp_modify. Qed.

Lemma kept_reserve n picks i p w :
  client w = c0 -> wp (reserve n picks i p) (fun _ => kept) (fun _ => kept) w.
Proof.
  revert i w. induction n as [|n IH]; intros i w H; simpl; [done|].
  apply kept_bind.
  { unfold pop_available. apply kept_bind; [by apply kept_the_pool|].
    intros P w1 H1. destruct (set_pop _ _) as [[c rest]|]; [|done].
    apply kept_bind; [by apply kept_update_pool|]. by intros. }
  intros c w1 H1. apply kept_bind; [by apply kept_the_conn|].
  intros C w2 H2. apply kept_bind.
  { destruct (_ && _); [|done]. unfold transport_close.
    apply kept_bind; [by apply kept_update_conn|].
    intros _ w3 H3. by apply kept_log. }
  intros _ w3 H3. destruct (conn_stale C); [by apply IH|done].
Qed.

Lemma kept_new_connection p producer w :
  client w = c0 -> wp (new_connection p producer) (fun _ => kept) (fun _ => kept) w.
Proof.
  intros H. unfold new_connection. apply kept_bind; [by apply kept_the_pool|].
  intros P w1 H1. destruct (_ <=? _); [done|].
  apply wp_bind, wp_get, wp_bind, wp_modify, wp_ret. exact H1.
Qed.

(** The only thing [get_or_create_connection] does to the client is the
    call of [get_event_loop] it makes when it starts a new connection. *)
Lemma get_or_create_connection_kept picks p producer w :
  client w = c0 ->
  wp (get_or_create_connection picks p producer)
     (fun a w' => client w' = match a with
                              | Ready _ => c0
                              | Pending _ => with_event_loop c0
                              end)
     (fun _ => kept) w.
Proof.
  intros H. unfold get_or_create_connection.
  apply wp_bind. eapply wp_mono; [by apply kept_the_pool| |done].
  intros P w1 H1. apply wp_bind.
  eapply wp_mono with (Q := fun _ => kept) (E := fun _ => kept); [| |done].
  { apply wp_try_except_else.
    eapply wp_mono; [by apply kept_reserve| |].
    - intros c w2 H2. apply kept_bind; [by apply kept_update_pool|]. by intros.
    - intros e w2 H2. by destruct (is_KeyError e). }
  intros [c|] w2 H2; [done|].
  apply wp_bind. eapply wp_mono; [by apply kept_new_connection| |done].
  intros c w3 H3. apply wp_bind. eapply wp_mono; [by apply kept_update_conn| |done].
  intros ? w4 H4. apply wp_bind. eapply wp_mono; [by apply kept_update_conn| |done].
  intros ? w5 H5. apply wp_bind. destruct producer as [|q]; [|done].
  apply wp_Client_get_event_loop. intros l Hl.
  apply wp_bind, wp_modify, wp_ret. simpl. by rewrite H5.
Qed.

Lemma kept_new_request k r w :
  client w = c0 -> wp (new_request k r) (fun _ => kept) (fun _ => kept) w.
Proof.
  intros H. unfold new_request.
  apply kept_bind; [by apply kept_the_consumer|]. intros _ w1 H1.
  apply kept_bind; [by apply kept_update_consumer|]. intros _ w2 H2.
  by apply kept_log.
Qed.

End ClientFrame.

(** ** The registry under [get_connection] *)

Lemma dict_get_app_l k p (d d' : list (key * pool_id)) :
  dict_get k d = Some p -> dict_get k (d ++ d') = Some p.
Proof.
  induction d as [|[k0 q] d IH]; simpl; [discriminate|].
  by destruct (decide (k = k0)).
Qed.

Lemma dict_get_app_r k (d d' : list (key * pool_id)) :
  dict_get k d = None -> dict_get k (d ++ d') = dict_get k d'.
Proof.
  induction d as [|[k0 q] d IH]; simpl; [done|].
  by destruct (decide (k = k0)).
Qed.

(** [get_connection] changes the client in its registry, by registering a
    pool for a key that had none, and in its loop, when a connection is
    started; a call that raises has left the loop alone. *)
Lemma get_connection_client picks request w :
  wp (get_connection picks request)
     (fun a w' =>
        client w' = match a with
                    | Ready _ => set_connection_pools (registered request w) (client w)
                    | Pending _ =>
                        with_event_loop
                          (set_connection_pools (registered request w) (client w))
                    end)
     (fun _ w' => client w' = set_connection_pools (registered request w) (client w))
     w.
Proof.
  unfold get_connection. apply wp_bind, wp_get.
  unfold registered.
  destruct (dict_get (Request_key request) (connection_pools (client w))) eqn:Hget.
  - apply wp_bind, wp_ret.
    apply get_or_create_connection_kept.
    simpl. unfold set_connection_pools. simpl. rewrite Hget.
    by destruct (client w).
  - apply wp_bind, wp_bind, wp_modify, wp_bind, wp_modify, wp_ret.
    apply get_or_create_connection_kept.
    simpl. unfold set_connection_pools. simpl. rewrite Hget.
    by destruct (client w).
Qed.

(** After [get_connection] the client has the registry [registered] gives
    and, but for its loop, the attributes it had. *)
Lemma get_connection_registry picks request w :
  let w' := fst (get_connection picks request w) in
  connection_pools (client w') = registered request w (connection_pools (client w))
  ∧ consumer_factory (client w') = consumer_factory (client w)
  ∧ sc_consumer (client w') = sc_consumer (client w).
Proof.
  pose proof (get_connection_client picks request w) as H. unfold wp in H.
  destruct (get_connection picks request w) as [w' [[c|c]|e]]; simpl; by rewrite H.
Qed.

Lemma response_client picks request w :
  let c1 := set_connection_pools (registered request w) (client w) in
  wp (response picks request)
     (fun _ w' => client w' = with_event_loop c1)
     (fun _ w' => client w' = c1 ∨ client w' = with_event_loop c1)
     w.
Proof.
  intros c1. unfold response. apply wp_bind.
  eapply wp_mono with
    (Q := fun _ w' => client w' = c1 ∨ client w' = with_event_loop c1)
    (E := fun _ w' => client w' = c1 ∨ client w' = with_event_loop c1);
    [| |done].
  { eapply wp_mono; [apply get_connection_client| |].
    - intros [c|c] w1 H1; [by left|by right].
    - intros e w1 H1. by left. }
  intros a w1 H1. apply wp_bind.
  eapply wp_mono with
    (Q := fun _ w' => client w' = client w1) (E := fun _ w' => client w' = client w1).
  { unfold call_consumer_factory. apply wp_bind, wp_get.
    destruct (consumer_factory (client w1)); [|done].
    apply wp_bind, wp_modify.
    apply (kept_bind (client w1)); [by apply kept_update_conn|]. by intros. }
  2:{ intros e w2 ->. exact H1. }
  intros k w2 H2. apply wp_bind.
  eapply wp_mono; [by apply (kept_new_request (client w1))| |].
  2:{ intros e w3 ->. exact H1. }
  intros ? w3 H3. apply wp_bind, wp_Client_get_event_loop. intros l Hl.
  apply wp_bind, wp_get, wp_bind.
  assert (client (set_client with_event_loop w3) = with_event_loop c1) as Hc.
  { simpl. rewrite H3. destruct H1 as [-> | ->]; [done|apply with_event_loop_idem]. }
  destruct (force_sync _); [apply wp_modify|apply wp_ret]; by apply wp_ret.
Qed.

(** X8: [get_connection] keeps the registry a dictionary with one pool per
    key: afterwards the key of the request resolves to a pool, every earlier
    registration resolves as before, and when the key was registered already
    the registry is left as it was, so that requests with equal keys share
    one pool.  This holds whether the acquisition succeeds or raises. *)
Theorem get_connection_registers
        (picks : nat -> nat) (request : Request) (w : World) :
  NoDup (connection_pools (client w)).*1 ->
  NoDup (connection_pools (client (fst (get_connection picks request w)))).*1
  ∧ is_Some (dict_get (Request_key request)
               (connection_pools (client (fst (get_connection picks request w)))))
  ∧ (forall k p,
       dict_get k (connection_pools (client w)) = Some p ->
       dict_get k (connection_pools (client (fst (get_connection picks request w))))
       = Some p)
  ∧ (is_Some (dict_get (Request_key request) (connection_pools (client w))) ->
     connection_pools (client (fst (get_connection picks request w)))
     = connection_pools (client w)).
Proof.
  intros Hnd.
  destruct (get_connection_registry picks request w) as (-> & _).
  unfold registered.
  destruct (dict_get (Request_key request) (connection_pools (client w))) eqn:Hget.
  - split; [done|]. split; [by rewrite Hget|]. split; done.
  - split.
    { rewrite fmap_app. apply NoDup_app. split; [done|]. split.
      - intros k Hk Hin. simpl in Hin. apply list_elem_of_singleton in Hin as ->.
        by apply dict_get_None in Hget.
      - simpl. apply NoDup_singleton. }
    split.
    { rewrite dict_get_app_r by done. simpl. rewrite decide_True by done. by eexists. }
    split.
    { intros k p Hk. by apply dict_get_app_l. }
    by intros [? ?].
Qed.

Lemma get_connection_registers_witness :
  NoDup (connection_pools
           (client (fst (get_connection Examples.first_pick (mkRequest "g" 0)
                           Examples.fresh_world)))).*1
  ∧ is_Some (dict_get (Request_key (mkRequest "g" 0))
               (connection_pools
                  (client (fst (get_connection Examples.first_pick (mkRequest "g" 0)
                                  Examples.fresh_world)))))
  ∧ (forall k p,
       dict_get k (connection_pools (client Examples.fresh_world)) = Some p ->
       dict_get k (connection_pools
                     (client (fst (get_connection Examples.first_pick (mkRequest "g" 0)
                                     Examples.fresh_world))))
       = Some p)
  ∧ (is_Some (dict_get (Request_key (mkRequest "g" 0))
                (connection_pools (client Examples.fresh_world))) ->
     connection_pools
       (client (fst (get_connection Examples.first_pick (mkRequest "g" 0)
                       Examples.fresh_world)))
     = connection_pools (client Examples.fresh_world)).
Proof.
  apply (get_connection_registers Examples.first_pick (mkRequest "g" 0)
           Examples.fresh_world).
  simpl. apply NoDup_singleton.
Defined.

(** X9: a client without a consumer factory (the class default) fails in
    [response] with [TypeError] only after [get_connection] has run: the
    pool registered and the connection acquired or started for the request
    stay as that call left them. *)
Theorem response_without_consumer_factory
        (picks : nat -> nat) (request : Request) (w w1 : World) (a : acquired) :
  consumer_factory (client w) = None ->
  get_connection picks request w = (w1, Ok a) ->
  response picks request w = (w1, Raise TypeError).
Proof.
  intros Hnone Hget.
  destruct (get_connection_registry picks request w) as (_ & Hfactory & _).
  rewrite Hget in Hfactory. simpl in Hfactory.
  unfold response, bind at 1. rewrite Hget.
  unfold bind at 1, call_consumer_factory, bind at 1, get.
  by rewrite Hfactory, Hnone.
Qed.

Lemma response_without_consumer_factory_witness :
  response Examples.first_pick (mkRequest "h" 0)
    (World_init (Client_init None None false None))
  = (fst (get_connection Examples.first_pick (mkRequest "h" 0)
            (World_init (Client_init None None false None))),
     Raise TypeError).
Proof.
  apply (response_without_consumer_factory Examples.first_pick (mkRequest "h" 0)
           (World_init (Client_init None None false None)) _ (Pending 0%nat)).
  - reflexivity.
  - vm_compute. reflexivity.
Defined.

(** X10: a first call to [SingleClient.response] that raises records no
    consumer: the exception is passed on and [_consumer] is still [None], so
    the next call goes through [Client.response] again. *)
Theorem single_client_failed_first_call
        (picks : nat -> nat) (request : Request) (w w1 : World) (e : exn) :
  sc_consumer (client w) = None ->
  response picks request w = (w1, Raise e) ->
  SingleClient_response picks request w = (w1, Raise e)
  ∧ sc_consumer (client w1) = None.
Proof.
  intros Hnone Hrun. split.
  - unfold SingleClient_response, bind at 1, get. rewrite Hnone.
    unfold bind. by rewrite Hrun.
  - pose proof (response_client picks request w) as Hclient.
    unfold wp in Hclient. rewrite Hrun in Hclient.
    by destruct Hclient as [-> | ->].
Qed.

Lemma single_client_failed_first_call_witness :
  SingleClient_response Examples.first_pick (mkRequest "h" 0)
    (World_init (Client_init None None false None))
  = (fst (get_connection Examples.first_pick (mkRequest "h" 0)
            (World_init (Client_init None None false None))),
     Raise TypeError)
  ∧ sc_consumer
      (client (fst (get_connection Examples.first_pick (mkRequest "h" 0)
                      (World_init (Client_init None None false None))))) = None.
Proof.
  apply (single_client_failed_first_call Examples.first_pick (mkRequest "h" 0)
           (World_init (Client_init None None false None)) _ TypeError).
  - reflexivity.
  - vm_compute. reflexivity.
Defined.

(** ** Client.update_parameters *)

Section ParameterFacts.

Variable V : Type.
Variable getattr : string -> option V.

Local Abbreviation fill :=
  (fun name : string =>
     params <- get;;
     match params !! name with
     | Some _ => ret tt
     | None =>
         match getattr name with
         | Some v => modify (insert name v)
         | None => raise (AttributeError name)
         end
     end).

Lemma fill_parameters (l : list string) (params : gmap string V) :
  (forall name, name ∈ l -> is_Some (params !! name) ∨ is_Some (getattr name)) ->
  exists params',
    for_each l fill params = (params', Ok tt)
    ∧ forall name,
        params' !! name
        = match params !! name with
          | Some v => Some v
          | None => if decide (name ∈ l) then getattr name else None
          end.
Proof.
  revert params. induction l as [|n l IH]; intros params Hall; cbn -[decide].
  - exists params. split; [done|]. intros name.
    destruct (params !! name); [done|]. rewrite decide_False; [done|].
    apply not_elem_of_nil.
  - unfold bind at 1, bind at 1, get.
    destruct (params !! n) as [v|] eqn:Hn; cbn -[decide].
    + destruct (IH params) as (params' & Hrun & Hval).
      { intros name Hin. apply Hall. by apply list_elem_of_further. }
      exists params'. split; [done|]. intros name. rewrite Hval.
      destruct (params !! name) eqn:Hname; [done|].
      assert (name ≠ n) as Hne by congruence.
      destruct (decide (name ∈ l)) as [Hin|Hnin].
      * rewrite decide_True; [done|]. by apply list_elem_of_further.
      * rewrite decide_False; [done|]. rewrite not_elem_of_cons. tauto.
    + destruct (Hall n) as [[v Hv]|[v Hv]]; [apply list_elem_of_here|congruence|].
      rewrite Hv. unfold modify. cbn -[decide].
      destruct (IH (<[n := v]> params)) as (params' & Hrun & Hval).
      { intros name Hin. destruct (decide (name = n)) as [->|Hne].
        - left. rewrite lookup_insert_eq. by eexists.
        - rewrite lookup_insert_ne by done. apply Hall. by apply list_elem_of_further. }
      exists params'. split; [done|]. intros name. rewrite Hval.
      destruct (decide (name = n)) as [->|Hne].
      * rewrite lookup_insert_eq, Hn. rewrite decide_True; [done|].
        apply list_elem_of_here.
      * rewrite lookup_insert_ne by done.
        destruct (params !! name); [done|].
        destruct (decide (name ∈ l)) as [Hin|Hnin].
        -- rewrite decide_True; [done|]. by apply list_elem_of_further.
        -- rewrite decide_False; [done|]. rewrite not_elem_of_cons. tauto.
Qed.

(** X11: when every listed name is given by the caller or is an attribute
    of the client, [update_parameters] returns the dictionary in which the
    caller's values are kept, each listed name that was missing has the
    client's attribute as its value, and no other name has been added. *)
Theorem update_parameters_fills_defaults
        (parameter_list : list string) (params : gmap string V) :
  (forall name, name ∈ parameter_list ->
                is_Some (params !! name) ∨ is_Some (getattr name)) ->
  exists params',
    update_parameters V getattr parameter_list params = (params', Ok params')
    ∧ forall name,
        params' !! name
        = match params !! name with
          | Some v => Some v
          | None => if decide (name ∈ parameter_list) then getattr name else None
          end.
Proof.
  intros Hall. destruct (fill_parameters parameter_list params Hall)
    as (params' & Hrun & Hval).
  exists params'. split; [|done].
  unfold update_parameters, bind at 1. by rewrite Hrun.
Qed.

Lemma update_parameters_for_each (l : list string) (params : gmap string V) :
  update_parameters V getattr l params
  = match for_each l fill params with
    | (s, Ok _) => (s, Ok s)
    | (s, Raise e) => (s, Raise e)
    end.
Proof.
  unfold update_parameters, bind at 1.
  by destruct (for_each l fill params) as [s [[]|e]].
Qed.

(** X12: [update_parameters] is idempotent: applied to its own result it
    returns that result unchanged. *)
Theorem update_parameters_idempotent
        (parameter_list : list string) (params params' : gmap string V) :
  update_parameters V getattr parameter_list params = (params', Ok params') ->
  (forall name, name ∈ parameter_list ->
                is_Some (params !! name) ∨ is_Some (getattr name)) ->
  update_parameters V getattr parameter_list params' = (params', Ok params').
Proof.
  intros Hrun Hall.
  destruct (fill_parameters parameter_list params Hall) as (p1 & Hrun1 & Hval1).
  rewrite update_parameters_for_each, Hrun1 in Hrun. injection Hrun as <-.
  assert (forall name, name ∈ parameter_list ->
            is_Some (p1 !! name) ∨ is_Some (getattr name)) as Hall'.
  { intros name Hin. rewrite Hval1.
    destruct (params !! name) eqn:Hname; [left; by eexists|].
    rewrite decide_True by done.
    destruct (Hall name Hin) as [[v Hv]|Hattr]; [congruence|by right]. }
  destruct (fill_parameters parameter_list p1 Hall') as (p2 & Hrun2 & Hval2).
  rewrite update_parameters_for_each, Hrun2.
  assert (p2 = p1) as ->; [|done].
  apply map_eq. intros name. rewrite Hval2.
  destruct (p1 !! name) eqn:Hname; [done|].
  destruct (decide (name ∈ parameter_list)) as [Hin|]; [|done].
  destruct (Hall' name Hin) as [[v Hv]|[v Hv]]; [congruence|].
  rewrite Hval1 in Hname. destruct (params !! name); [done|].
  rewrite decide_True in Hname by done. congruence.
Qed.

Lemma for_each_app {S A} (l1 l2 : list A) (body : A -> M S unit) (s : S) :
  for_each (l1 ++ l2) body s
  = match for_each l1 body s with
    | (s', Ok _) => for_each l2 body s'
    | (s', Raise e) => (s', Raise e)
    end.
Proof.
  revert s. induction l1 as [|x l1 IH]; intros s; simpl; [done|].
  unfold bind. destruct (body x s) as [s' [[]|e]]; [apply IH|done].
Qed.

Lemma fill_keeps_missing (l : list string) (params filled : gmap string V) name :
  for_each l fill params = (filled, Ok tt) ->
  params !! name = None ->
  getattr name = None ->
  filled !! name = None.
Proof.
  revert params. induction l as [|n l IH]; intros params Hrun Hparam Hattr.
  - simpl in Hrun. by injection Hrun as <-.
  - simpl in Hrun. unfold bind at 1, bind at 1, get in Hrun.
    destruct (params !! n) as [v|] eqn:Hn.
    + by apply (IH params).
    + destruct (getattr n) as [v|] eqn:Hv; [|discriminate].
      apply (IH (<[n:=v]> params)); [done| |done].
      rewrite lookup_insert_ne; [done|]. intros ->. congruence.
Qed.

(** X13: at the first listed name that the caller has not given and the
    client does not have as an attribute, [update_parameters] raises
    [AttributeError] for that name; the dictionary keeps the defaults filled
    in for the names listed before it. *)
Theorem update_parameters_missing_attribute
        (before after : list string) (name : string)
        (params filled : gmap string V) :
  update_parameters V getattr before params = (filled, Ok filled) ->
  params !! name = None ->
  getattr name = None ->
  update_parameters V getattr (before ++ name :: after) params
  = (filled, Raise (AttributeError name)).
Proof.
  intros Hrun Hparam Hattr.
  rewrite update_parameters_for_each in Hrun.
  destruct (for_each before fill params) as [s [[]|e]] eqn:Hfill; [|discriminate].
  injection Hrun as ->.
  pose proof (fill_keeps_missing before params filled name Hfill Hparam Hattr) as Hname.
  rewrite update_parameters_for_each, for_each_app, Hfill. simpl.
  unfold bind at 1, bind at 1, get. by rewrite Hname, Hattr.
Qed.

End ParameterFacts.

Lemma request_parameters_covered name :
  name ∈ Examples.request_parameters ->
  is_Some (Examples.given_parameters !! name)
  ∨ is_Some (Examples.client_attribute name).
Proof.
  intros Hin. right.
  apply elem_of_cons in Hin as [->|Hin]; [by eexists|].
  apply elem_of_cons in Hin as [->|Hin]; [by eexists|].
  by apply elem_of_nil in Hin.
Defined.

Lemma update_parameters_fills_defaults_witness :
  exists params',
    update_parameters Z Examples.client_attribute Examples.request_parameters
      Examples.given_parameters = (params', Ok params')
    ∧ forall name,
        params' !! name
        = match Examples.given_parameters !! name with
          | Some v => Some v
          | None => if decide (name ∈ Examples.request_parameters)
                    then Examples.client_attribute name else None
          end.
Proof.
  apply (update_parameters_fills_defaults Z Examples.client_attribute
           Examples.request_parameters Examples.given_parameters).
  exact request_parameters_covered.
Defined.

Lemma update_parameters_idempotent_witness :
  update_parameters Z Examples.client_attribute Examples.request_parameters
    Examples.filled_parameters
  = (Examples.filled_parameters, Ok Examples.filled_parameters).
Proof.
  apply (update_parameters_idempotent Z Examples.client_attribute
           Examples.request_parameters Examples.given_parameters
           Examples.filled_parameters).
  - vm_compute. reflexivity.
  - exact request_parameters_covered.
Defined.

Lemma update_parameters_missing_attribute_witness :
  update_parameters Z Examples.client_attribute
    (["timeout"] ++ "colour" :: ["max_redirects"]) ∅
  = ({[ "timeout" := 30 ]}, Raise (AttributeError "colour")).
Proof.
  apply (update_parameters_missing_attribute Z Examples.client_attribute
           ["timeout"] ["max_redirects"] "colour" ∅ {[ "timeout" := 30 ]}).
  - vm_compute. reflexivity.
  - reflexivity.
  - reflexivity.
Defined.

(** ** Client.__init__ and Client.get_event_loop *)

(** X14: whatever is passed to the constructor, the client's
    [max_connections] and [max_reconnect] are never zero: a missing or zero
    [max_connections] becomes [2**31], a missing or zero [max_reconnect]
    the class default [1], and any other value is taken as given.  The
    registry starts empty. *)
Theorem client_init_defaults
        (max_conn max_rec : option Z) (sync : bool) (fact : option factory) :
  let c := Client_init max_conn max_rec sync fact in
  max_connections c ≠ 0
  ∧ max_reconnect c ≠ 0
  ∧ max_connections c
    = (if decide (default 0 max_conn = 0) then 2 ^ 31 else default 0 max_conn)
  ∧ max_reconnect c
    = (if decide (default 0 max_rec = 0) then 1 else default 0 max_rec)
  ∧ connection_pools c = [].
Proof.
  unfold Client_init. cbn [max_connections max_reconnect connection_pools].
  assert (2 ^ 31 ≠ 0) as Hpow by (intros H; vm_compute in H; discriminate).
  repeat case_decide; repeat split; congruence.
Qed.

(** X15: [get_event_loop] settles on one loop: a second call returns the
    loop of the first and changes nothing, so a client builds at most one
    loop of its own, and only when it is synchronous. *)
Theorem get_event_loop_settles (s : LoopState) :
  get_event_loop (fst (get_event_loop s))
  = (fst (get_event_loop s), snd (get_event_loop s))
  ∧ (loops_built (fst (get_event_loop s)) <= Datatypes.S (loops_built s))%nat
  ∧ (loop_force_sync s = false ->
     loops_built (fst (get_event_loop s)) = loops_built s).
Proof.
  unfold get_event_loop, bind, get. destruct s as [[l|] [|] n]; simpl;
    repeat split; (done || lia).
Qed.

(** ** Client.upgrade *)

Section UpgradeFacts.

Variable can_reuse_connection : Connection -> option Consumer -> bool.

(** With the flag cleared, no handler bound to [post_request] changes the
    store. *)
Lemma post_request_handlers_suppressed (l : list handler) k K w :
  consumers w !! k = Some K ->
  cons_release_connection K = Some false ->
  for_each l (fun h => run_post_request can_reuse_connection h k) w = (w, Ok tt).
Proof.
  intros HK Hflag. induction l as [|h l IH]; simpl; [done|].
  unfold bind. destruct h as [p|p c]; simpl.
  - by rewrite (release_response_suppressed can_reuse_connection p k w K).
  - done.
Qed.

(** X16: [Client.upgrade] on a connection whose current consumer is still
    running clears the consumer's [release_connection] flag, finishes it,
    installs the new protocol factory and returns the connection; although
    finishing the consumer fires [post_request], no pool and no registration
    changes: the connection is not released. *)
Theorem client_upgrade_detaches
        (w : World) (c : conn_id) (C : Connection) (k : consumer_id)
        (K : Consumer) (f : factory) :
  conns w !! c = Some C ->
  conn_current_consumer C = Some k ->
  consumers w !! k = Some K ->
  cons_finished K = false ->
  cons_connection K = Some c ->
  upgrade can_reuse_connection c f w
  = (mkWorld (<[c := set_consumer_factory f C]> (conns w))
       (<[k := mark_finished (set_release_connection false K)]> (consumers w))
       (pools w) (client w) (trace w ++ [ConnectionUpgrade c f]),
     Ok (Some c)).
Proof.
  intros HC Hcur HK Hrun Hconn.
  unfold upgrade. unfold bind at 1, the_conn. rewrite HC, Hcur.
  unfold bind at 1, update_consumer, modify, set_consumers. simpl. rewrite HK.
  unfold bind at 1, finished.
  unfold bind at 1, the_consumer. simpl. rewrite lookup_insert_eq. simpl.
  rewrite Hrun.
  unfold bind at 1, update_consumer, modify, set_consumers. simpl.
  rewrite lookup_insert_eq, insert_insert_eq. rewrite Hconn.
  unfold bind at 1, the_conn. simpl. rewrite HC.
  rewrite (post_request_handlers_suppressed _ k
             (mark_finished (set_release_connection false K)));
    [|simpl; apply lookup_insert_eq|done].
  unfold bind at 1, Connection_upgrade.
  unfold bind at 1, the_conn. simpl. rewrite HC.
  unfold bind at 1, update_conn, modify, set_conns. simpl. rewrite HC.
  reflexivity.
Qed.

End UpgradeFacts.

Lemma client_upgrade_detaches_witness :
  upgrade Client_can_reuse_connection 0%nat (WebSocketFactory 0%nat)
    Examples.handshake_world
  = (mkWorld
       (<[0%nat := set_consumer_factory (WebSocketFactory 0%nat)
                     (mkConnection ObjClient false false (Some 0%nat)
                        ClientConsumerFactory
                        [H_release_response 0%nat] [H_try_reconnect 0%nat 0%nat])]>
          (conns Examples.handshake_world))
       (<[0%nat := mark_finished
                     (set_release_connection false
                        (mkConsumer (Some 0%nat) None 101 false
                           (Some (mkRequest "h" 0))))]>
          (consumers Examples.handshake_world))
       (pools Examples.handshake_world) (client Examples.handshake_world)
       (trace Examples.handshake_world
          ++ [ConnectionUpgrade 0%nat (WebSocketFactory 0%nat)]),
     Ok (Some 0%nat)).
Proof.
  apply (client_upgrade_detaches Client_can_reuse_connection
           Examples.handshake_world 0%nat
           (mkConnection ObjClient false false (Some 0%nat) ClientConsumerFactory
              [H_release_response 0%nat] [H_try_reconnect 0%nat 0%nat])
           0%nat
           (mkConsumer (Some 0%nat) None 101 false (Some (mkRequest "h" 0)))
           (WebSocketFactory 0%nat)); reflexivity.
Defined.

(** * Further properties of the plugins *)

(** ** Redirects *)

Section RedirectMore.

Variable REDIRECT_CODES : list Z.
Variable urlparse : string -> result parsed_url.
Variable urljoin : string -> string -> result string.
Variable requote_uri : string -> result string.

Local Abbreviation resolve := (redirect_url urlparse urljoin requote_uri).
Local Abbreviation do_redirect := (_do_redirect urlparse urljoin requote_uri).


(** X18: whenever [handle_redirect] binds [_do_redirect] to a response,
    the response has a [location] header and [_do_redirect] ends in one of
    three ways: with the exception a URL utility raised while the location
    was resolved, with [TooManyRedirects] carrying that very response, or
    with a [request_again] for the resolved URL. *)
Theorem bound_redirect_outcome (response : HttpResponse) (exc : bool) :
  handle_redirect REDIRECT_CODES response exc = true ->
  exists location,
    headers response !! "location" = Some location
    ∧ match resolve (request response) location with
      | Raise e => do_redirect response = Raise e
      | Ok url =>
          do_redirect response = Raise (TooManyRedirects (resp_id response))
          ∨ exists again, do_redirect response = Ok again ∧ ra_url again = url
      end.
Proof.
  intros Hbind.
  destruct (handle_redirect_location REDIRECT_CODES response exc Hbind)
    as [location Hloc].
  exists location. split; [done|].
  destruct (resolve (request response) location) as [url|e] eqn:Hurl.
  - destruct (do_redirect_cases urlparse urljoin requote_uri response location url
                Hloc Hurl) as [[_ Hraise]|(_ & again & Hok & Hu & _)].
    + by left.
    + right. by exists again.
  - by apply do_redirect_url_failure with location.
Qed.

(** X19: the first redirect of a request is always followed: for a
    request without history, [None] or empty, whose [location] resolves to
    a URL, [_do_redirect] returns a [request_again] for that URL whatever
    [max_redirects] is, zero and negative values included, with the response
    as the whole history. *)
Theorem first_redirect_is_followed (response : HttpResponse) (location url : string) :
  headers response !! "location" = Some location ->
  resolve (request response) location = Ok url ->
  history_len (history (request response)) = 0 ->
  exists again,
    do_redirect response = Ok again
    ∧ ra_url again = url
    ∧ ra_params again !! "history" = Some (VHistory [resp_id response]).
Proof.
  intros Hloc Hurl Hfresh.
  assert (history_truthy (history (request response)) = false) as Hfalsy.
  { unfold history_len in Hfresh. by destruct (history (request response)) as [[|]|]. }
  assert (next_history response = [resp_id response]) as Hnext.
  { unfold next_history. unfold history_len in Hfresh.
    by destruct (history (request response)) as [[|]|]. }
  destruct (do_redirect_cases urlparse urljoin requote_uri response location url
              Hloc Hurl) as [[Hcmp _]|(_ & again & Hok & Hu & Hhist)].
  - rewrite Hfalsy in Hcmp. discriminate.
  - exists again. split; [done|]. split; [done|]. by rewrite Hhist, Hnext.
Qed.

(** X28: a request that allows at least one redirect ends within
    [max_redirects + 1] exchanges, whatever its history was at the start and
    whatever the server answers: with a redirect refused, a failure of a
    URL utility, or a response that is no redirect. *)
Theorem redirect_bound (srv : server) (req : HttpRequest) (fuel : nat) :
  1 <= max_redirects req ->
  (Z.to_nat (max_redirects req) + 1 <= fuel)%nat ->
  within_redirect_bound
    (exchange REDIRECT_CODES urlparse urljoin requote_uri fuel srv 0 req)
    (max_redirects req).
Proof.
  intros Hm Hfuel. unfold within_redirect_bound.
  destruct (Z_le_gt_dec (history_len (history req)) (max_redirects req)) as [Hle|Hgt].
  - destruct (exchange_bound REDIRECT_CODES urlparse urljoin requote_uri
                fuel srv 0 req) as (k & -> & Hk); [done|done| |].
    + unfold history_len in *. lia.
    + unfold history_len in *. lia.
  - destruct fuel as [|fuel]; [lia|].
    rewrite (exchange_overdrawn REDIRECT_CODES urlparse urljoin requote_uri
               fuel srv 0 req) by lia.
    lia.
Qed.

End RedirectMore.


Lemma bound_redirect_outcome_witness :
  exists location,
    headers Examples.malformed_redirect !! "location" = Some location
    ∧ match redirect_url Examples.parse Examples.join Examples.requote
              (request Examples.malformed_redirect) location with
      | Raise e =>
          _do_redirect Examples.parse Examples.join Examples.requote
            Examples.malformed_redirect = Raise e
      | Ok url =>
          _do_redirect Examples.parse Examples.join Examples.requote
            Examples.malformed_redirect
          = Raise (TooManyRedirects (resp_id Examples.malformed_redirect))
          ∨ exists again,
              _do_redirect Examples.parse Examples.join Examples.requote
                Examples.malformed_redirect = Ok again
              ∧ ra_url again = url
      end.
Proof.
  apply (bound_redirect_outcome Examples.codes Examples.parse Examples.join
           Examples.requote Examples.malformed_redirect false).
  vm_compute. reflexivity.
Defined.

(** The malformed location of the example ends [_do_redirect] with the
    [ValueError] of [urlparse]. *)
Lemma malformed_location_raises :
  _do_redirect Examples.parse Examples.join Examples.requote
    Examples.malformed_redirect = Raise ValueError.
Proof. vm_compute. reflexivity. Qed.

Lemma first_redirect_is_followed_witness :
  exists again,
    _do_redirect Examples.parse Examples.join Examples.requote Examples.first_found
    = Ok again
    ∧ ra_url again = "http://h/b"
    ∧ ra_params again !! "history" = Some (VHistory [resp_id Examples.first_found]).
Proof.
  apply (first_redirect_is_followed Examples.parse Examples.join Examples.requote
           Examples.first_found "/b" "http://h/b"); reflexivity.
Defined.

Lemma redirect_bound_witness :
  within_redirect_bound
    (exchange Examples.codes Examples.parse Examples.join Examples.requote 5
       Examples.always_redirect 0 Examples.redirect_request)
    (max_redirects Examples.redirect_request).
Proof.
  apply (redirect_bound Examples.codes Examples.parse Examples.join Examples.requote
           Examples.always_redirect Examples.redirect_request 5).
  - simpl. lia.
  - simpl. lia.
Defined.

(** ** Tunneling *)

(** A firing of the plugin for a response whose request has no tunnel
    changes nothing. *)
Lemma tunneling_without_tunnel (s : TState) (rq : request_ref) (request : TRequest) :
  _request (tresponse s) = Some rq ->
  requests s !! rq = Some request ->
  _tunnel request = None ->
  Tunneling_call s = (s, Ok tt).
Proof.
  intros Hreq Hrq Htunnel.
  unfold Tunneling_call, bind, get, the_request. by rewrite Hreq, Hrq, Htunnel.
Qed.

(** The first two firings, step by step. *)
Lemma tunneling_first_two_steps
      (s : TState) (rq tunnel : request_ref) (request : TRequest) :
  _request (tresponse s) = Some rq ->
  requests s !! rq = Some request ->
  _tunnel request = Some tunnel ->
  default false (_apply_tunnel request) = false ->
  transport_is_tls (tresponse s) = false ->
  let armed :=
    mkTState (<[rq := mkTRequest (Some tunnel) (Some true)]> (requests s))
      (mkTResponse (Some rq) (pre_request (tresponse s) ++ [Tunneling_self])
         (on_headers (tresponse s)) false) in
  Tunneling_call s = (armed, Ok tt)
  ∧ Tunneling_call armed
    = (mkTState (requests armed)
         (mkTResponse (Some tunnel) (pre_request (tresponse armed))
            (on_headers (tresponse s) ++ [Tunneling_on_headers_handler]) false),
       Ok tt).
Proof.
  intros Hreq Hrq Htunnel Hflag Htls armed. split.
  - unfold Tunneling_call, bind, get, the_request. rewrite Hreq, Hrq, Htunnel, Hflag.
    unfold set_apply_tunnel, bind_pre_request, modify. simpl.
    rewrite Hrq, Hreq, Htunnel, Htls. reflexivity.
  - unfold Tunneling_call, bind, get, the_request. simpl.
    rewrite lookup_insert_eq. simpl. reflexivity.
Qed.

Lemma tunneling_calls_fixed (s : TState) (n : nat) :
  Tunneling_call s = (s, Ok tt) -> Tunneling_calls n s = s.
Proof.
  intros Hfix. induction n as [|n IH]; simpl; [done|]. by rewrite Hfix.
Qed.

(** X20: over a plain transport the CONNECT request is substituted once:
    when the tunnel request has no tunnel of its own, every firing of
    [pre_request] after the second leaves the response and the requests as
    the second left them, with one [on_headers] continuation bound. *)
Theorem tunneling_substitutes_once
        (s : TState) (rq tunnel : request_ref) (request T : TRequest) (n : nat) :
  _request (tresponse s) = Some rq ->
  requests s !! rq = Some request ->
  _tunnel request = Some tunnel ->
  default false (_apply_tunnel request) = false ->
  transport_is_tls (tresponse s) = false ->
  requests s !! tunnel = Some T ->
  _tunnel T = None ->
  tunnel ≠ rq ->
  Tunneling_calls (2 + n) s = Tunneling_calls 2 s
  ∧ _request (tresponse (Tunneling_calls (2 + n) s)) = Some tunnel
  ∧ on_headers (tresponse (Tunneling_calls (2 + n) s))
    = on_headers (tresponse s) ++ [Tunneling_on_headers_handler].
Proof.
  intros Hreq Hrq Htunnel Hflag Htls HT HnoT Hne.
  destruct (tunneling_first_two_steps s rq tunnel request Hreq Hrq Htunnel Hflag Htls)
    as [H1 H2].
  assert (Tunneling_calls (2 + n) s = Tunneling_calls 2 s) as Heq.
  { simpl. rewrite H1. simpl. rewrite H2. simpl.
    apply tunneling_calls_fixed.
    apply (tunneling_without_tunnel _ tunnel T); simpl; [done| |done].
    by rewrite lookup_insert_ne. }
  rewrite Heq. split; [done|].
  simpl. rewrite H1. simpl. rewrite H2. by simpl.
Qed.

Lemma tunneling_tls_step
      (s : TState) (rq tunnel : request_ref) (request : TRequest) :
  _request (tresponse s) = Some rq ->
  requests s !! rq = Some request ->
  _tunnel request = Some tunnel ->
  transport_is_tls (tresponse s) = true ->
  _request (tresponse (fst (Tunneling_call s))) = Some rq
  ∧ on_headers (tresponse (fst (Tunneling_call s))) = on_headers (tresponse s)
  ∧ transport_is_tls (tresponse (fst (Tunneling_call s))) = true
  ∧ exists request', requests (fst (Tunneling_call s)) !! rq = Some request'
                     ∧ _tunnel request' = Some tunnel.
Proof.
  intros Hreq Hrq Htunnel Htls.
  unfold Tunneling_call, bind, get, the_request. rewrite Hreq, Hrq, Htunnel, Htls.
  destruct (default false (_apply_tunnel request)); simpl.
  - repeat split; try done. by exists request.
  - rewrite Hrq. simpl. repeat split; try done.
    exists (mkTRequest (_tunnel request) (Some true)).
    split; [apply lookup_insert_eq|done].
Qed.

(** X21: over a transport that is TLS already the plugin never
    substitutes the CONNECT request and never binds its [on_headers]
    continuation, however often [pre_request] fires. *)
Theorem tunneling_leaves_tls_alone
        (s : TState) (rq tunnel : request_ref) (request : TRequest) (n : nat) :
  _request (tresponse s) = Some rq ->
  requests s !! rq = Some request ->
  _tunnel request = Some tunnel ->
  transport_is_tls (tresponse s) = true ->
  _request (tresponse (Tunneling_calls n s)) = Some rq
  ∧ on_headers (tresponse (Tunneling_calls n s)) = on_headers (tresponse s).
Proof.
  revert s request. induction n as [|n IH]; intros s request Hreq Hrq Htunnel Htls;
    simpl; [done|].
  destruct (tunneling_tls_step s rq tunnel request Hreq Hrq Htunnel Htls)
    as (H1 & H2 & H3 & request' & H4 & H5).
  destruct (IH _ request' H1 H4 H5 H3) as [IH1 IH2].
  by rewrite IH1, IH2.
Qed.

(** ** The switch to TLS *)

(** X22: [switch_to_ssl] never wraps the socket: the name
    [SocketStreamSslTransport] is bound nowhere in the module, so the call in
    the [try] suite raises [NameError], which the handler hands to the
    future.  The transport, both counters, the silenced events and the
    requests started are as before; only the future changes, to a
    failure. *)
Theorem switch_to_ssl_fails_the_future (netloc : string) (c : TunnelConnection) :
  switch_to_ssl netloc c
  = (mkTunnelConnection (tc_transport c) (tc_processed c) (tc_requests_processed c)
       (tc_silenced c) (tc_started c) (tc_loop c)
       (future_failed (NameError "SocketStreamSslTransport")),
     Ok tt).
Proof. reflexivity. Qed.

(** X23: a tunnel consumer and the [switch_to_ssl] it schedules, run one
    after the other, leave the connection on its plain transport with its
    counters untouched and the future failed: the reader has been removed
    from the loop and nothing has taken its place. *)
Theorem tunnel_never_reaches_tls (netloc : string) (c : TunnelConnection) :
  let c' := fst (switch_to_ssl netloc (fst (_tunnel_consumer c))) in
  tc_transport c' = tc_transport c
  ∧ tc_processed c' = tc_processed c
  ∧ tc_requests_processed c' = tc_requests_processed c
  ∧ tc_started c' = tc_started c
  ∧ tc_loop c' = tc_loop c ++ [remove_reader; call_later_switch_to_ssl 1]
  ∧ tc_future c' = future_failed (NameError "SocketStreamSslTransport").
Proof. by repeat split. Qed.

Lemma tunneling_substitutes_once_witness :
  Tunneling_calls (2 + 3) Examples.tunnel_state = Tunneling_calls 2 Examples.tunnel_state
  ∧ _request (tresponse (Tunneling_calls (2 + 3) Examples.tunnel_state)) = Some 1%nat
  ∧ on_headers (tresponse (Tunneling_calls (2 + 3) Examples.tunnel_state))
    = on_headers (tresponse Examples.tunnel_state) ++ [Tunneling_on_headers_handler].
Proof.
  apply (tunneling_substitutes_once Examples.tunnel_state 0%nat 1%nat
           (mkTRequest (Some 1%nat) None) (mkTRequest None None) 3).
  - reflexivity.
  - reflexivity.
  - reflexivity.
  - reflexivity.
  - reflexivity.
  - reflexivity.
  - reflexivity.
  - discriminate.
Defined.

Lemma tunneling_leaves_tls_alone_witness :
  _request (tresponse (Tunneling_calls 4 Examples.tls_tunnel_state)) = Some 0%nat
  ∧ on_headers (tresponse (Tunneling_calls 4 Examples.tls_tunnel_state))
    = on_headers (tresponse Examples.tls_tunnel_state).
Proof.
  apply (tunneling_leaves_tls_alone Examples.tls_tunnel_state 0%nat 1%nat
           (mkTRequest (Some 1%nat) None) 4); reflexivity.
Defined.

(** ** The first request for a key *)

(** X24: the first request for a key makes [get_connection] build a pool
    with the address and timeout of the request and the client's
    [max_connections], register it under the key, and start a connection of
    that pool: the result is a pending connect, not a connection taken from
    a pool. *)
Theorem first_request_starts_connection
        (picks : nat -> nat) (request : Request) (w : World) :
  dict_get (Request_key request) (connection_pools (client w)) = None ->
  0 < max_connections (client w) ->
  exists w',
    get_connection picks request w
    = (w', Ok (Pending (fresh (dom (conns w)))))
    ∧ pools w' !! fresh (dom (pools w))
      = Some (mkPool (req_address request) (req_timeout request)
                (max_connections (client w)) ∅ ∅)
    ∧ dict_get (Request_key request) (connection_pools (client w'))
      = Some (fresh (dom (pools w)))
    ∧ conns w' !! fresh (dom (conns w))
      = Some (mkConnection ObjClient false false None ClientConsumerFactory
                [H_release_response (fresh (dom (pools w)))]
                [H_try_reconnect (fresh (dom (pools w))) (fresh (dom (conns w)))]).
Proof.
  intros Hget Hmax.
  remember (fresh (dom (pools w))) as p eqn:Hp.
  remember (fresh (dom (conns w))) as c eqn:Hc.
  destruct (wp_total (get_connection picks request)
              (fun a w' =>
                 a = Pending c
                 ∧ pools w' !! p
                   = Some (mkPool (req_address request) (req_timeout request)
                             (max_connections (client w)) ∅ ∅)
                 ∧ dict_get (Request_key request) (connection_pools (client w'))
                   = Some p
                 ∧ conns w' !! c
                   = Some (mkConnection ObjClient false false None
                             ClientConsumerFactory
                             [H_release_response p] [H_try_reconnect p c])) w)
    as (w' & a & Hrun & -> & H1 & H2 & H3); [|by exists w'].
  unfold get_connection. apply wp_bind, wp_get. rewrite Hget.
  apply wp_bind, wp_bind, wp_modify, wp_bind, wp_modify, wp_ret.
  rewrite <- Hp.
  unfold get_or_create_connection.
  apply wp_bind, wp_the_pool.
  cbn [pools set_pools set_client]. rewrite lookup_insert_eq.
  cbn [_available_connections]. rewrite size_empty.
  apply wp_bind, wp_try_except_else. cbn [reserve]. apply wp_raise.
  cbn [is_KeyError]. apply wp_ret.
  unfold new_connection. apply wp_bind, wp_bind, wp_the_pool.
  cbn [pools set_pools set_client]. rewrite lookup_insert_eq.
  cbn [_available_connections _concurrent_connections pool_max_connections].
  rewrite size_empty. cbn [Nat.add Z.of_nat].
  assert (max_connections (client w) <=? Z.of_nat 0 = false) as ->
    by (apply Z.leb_gt; lia).
  apply wp_bind, wp_get. cbn [conns set_client set_pools]. rewrite <- Hc.
  apply wp_bind, wp_modify, wp_ret.
  apply wp_bind. eapply wp_update_conn; [cbn [conns set_conns]; apply lookup_insert_eq|].
  apply wp_bind. eapply wp_update_conn; [cbn [conns set_conns]; apply lookup_insert_eq|].
  apply wp_bind, wp_Client_get_event_loop. intros l Hl.
  apply wp_bind, wp_modify, wp_ret.
  split; [done|]. cbn [pools conns client log set_client set_conns].
  split; [apply lookup_insert_eq|]. split.
  - cbn [connection_pools with_event_loop set_client_loop set_connection_pools].
    rewrite dict_get_app_r by done. simpl. by rewrite decide_True.
  - rewrite !insert_insert_eq. apply lookup_insert_eq.
Qed.

Lemma first_request_starts_connection_witness :
  exists w',
    get_connection Examples.first_pick (mkRequest "g" 0) Examples.fresh_world
    = (w', Ok (Pending (fresh (dom (conns Examples.fresh_world)))))
    ∧ pools w' !! fresh (dom (pools Examples.fresh_world))
      = Some (mkPool (req_address (mkRequest "g" 0)) (req_timeout (mkRequest "g" 0))
                (max_connections (client Examples.fresh_world)) ∅ ∅)
    ∧ dict_get (Request_key (mkRequest "g" 0)) (connection_pools (client w'))
      = Some (fresh (dom (pools Examples.fresh_world)))
    ∧ conns w' !! fresh (dom (conns Examples.fresh_world))
      = Some (mkConnection ObjClient false false None ClientConsumerFactory
                [H_release_response (fresh (dom (pools Examples.fresh_world)))]
                [H_try_reconnect (fresh (dom (pools Examples.fresh_world)))
                   (fresh (dom (conns Examples.fresh_world)))]).
Proof.
  apply (first_request_starts_connection Examples.first_pick (mkRequest "g" 0)
           Examples.fresh_world).
  - reflexivity.
  - reflexivity.
Defined.

(** ** Counting idle connections *)

Lemma reduce_available_shift ps acc w n k :
  reduce_available ps acc w = (w, Ok n) ->
  reduce_available ps (k + acc) w = (w, Ok (k + n)%nat).
Proof.
  revert acc. induction ps as [|q ps IH]; intros acc; simpl.
  - by intros [= <-].
  - unfold bind, the_pool. destruct (pools w !! q) as [Q|]; [|discriminate].
    intros Hrun. rewrite <- Nat.add_assoc. by apply IH.
Qed.

Lemma reduce_available_elsewhere ps acc w w1 p P' n :
  pools w1 = <[p := P']> (pools w) ->
  p ∉ ps ->
  reduce_available ps acc w = (w, Ok n) ->
  reduce_available ps acc w1 = (w1, Ok n).
Proof.
  intros Hp1. revert acc. induction ps as [|q ps IH]; intros acc Hnin; simpl.
  - by intros [= <-].
  - apply not_elem_of_cons in Hnin as [Hne Hnin].
    unfold bind, the_pool. rewrite Hp1, lookup_insert_ne by done.
    destruct (pools w !! q) as [Q|]; [|discriminate]. by apply IH.
Qed.

Lemma reduce_available_grown ps acc w w1 p P P' n :
  pools w1 = <[p := P']> (pools w) ->
  pools w !! p = Some P ->
  Pool_available_connections P' = Datatypes.S (Pool_available_connections P) ->
  NoDup ps -> p ∈ ps ->
  reduce_available ps acc w = (w, Ok n) ->
  reduce_available ps acc w1 = (w1, Ok (Datatypes.S n)).
Proof.
  intros Hp1 HP Hsize. revert acc.
  induction ps as [|q ps IH]; intros acc Hnd Hin; simpl.
  - by apply elem_of_nil in Hin.
  - apply NoDup_cons in Hnd as [Hq Hnd].
    unfold bind, the_pool.
    destruct (decide (q = p)) as [->|Hne].
    + rewrite Hp1, lookup_insert_eq, HP, Hsize. intros Hrun.
      apply (reduce_available_shift _ _ _ _ 1) in Hrun.
      apply (reduce_available_elsewhere _ _ w w1 p P') in Hrun; [|done|done].
      by replace (acc + Datatypes.S (Pool_available_connections P))%nat
        with (1 + (acc + Pool_available_connections P))%nat by lia.
    + rewrite Hp1, lookup_insert_ne by done.
      destruct (pools w !! q) as [Q|]; [|discriminate].
      apply IH; [done|]. apply elem_of_cons in Hin as [->|Hin]; done.
Qed.

Section CountFacts.

Variable can_reuse_connection : Connection -> option Consumer -> bool.

(** X25: [Client.available_connections] goes up by exactly one when a
    connection that was not idle is released for reuse to a registered pool
    (each pool being registered once). *)
Theorem release_counts_idle_connection
        (w : World) (p : pool_id) (P : Pool) (c : conn_id) (C : Connection)
        (response : option consumer_id) (R : option Consumer) (n : nat) :
  pools w !! p = Some P ->
  conns w !! c = Some C ->
  conn_producer C = ObjClient ->
  the_response response w = (w, Ok R) ->
  can_reuse_connection C R = true ->
  c ∉ _available_connections P ->
  NoDup (connection_pools (client w)).*2 ->
  p ∈ (connection_pools (client w)).*2 ->
  Client_available_connections w = (w, Ok n) ->
  Client_available_connections
    (fst (release_connection can_reuse_connection p c response w))
  = (fst (release_connection can_reuse_connection p c response w),
     Ok (Datatypes.S n)).
Proof.
  intros HP HC Hprod HR Hreuse Hidle Hnd Hin Hcount.
  rewrite (release_connection_result can_reuse_connection w p P c C response R)
    by done.
  rewrite Hreuse.
  assert (pool_is_empty (released_pool P c true) = false) as ->.
  { unfold pool_is_empty. simpl. rewrite bool_decide_false; [done|]. set_solver. }
  cbn [fst]. set (w1 := mkWorld _ _ _ _ _).
  unfold Client_available_connections, bind, get in *. cbn [client w1].
  apply (reduce_available_grown _ _ w w1 p P (released_pool P c true)); try done.
  unfold Pool_available_connections. simpl.
  rewrite size_union by set_solver. by rewrite size_singleton.
Qed.

End CountFacts.

Lemma release_counts_idle_connection_witness :
  Client_available_connections
    (fst (release_connection Client_can_reuse_connection 0%nat 0%nat None
            Examples.closed_world))
  = (fst (release_connection Client_can_reuse_connection 0%nat 0%nat None
            Examples.closed_world),
     Ok 1%nat).
Proof.
  apply (release_counts_idle_connection Client_can_reuse_connection
           Examples.closed_world 0%nat Examples.busy_pool 0%nat
           Examples.closed_conn None None 0%nat).
  - reflexivity.
  - reflexivity.
  - reflexivity.
  - reflexivity.
  - reflexivity.
  - simpl. apply not_elem_of_empty.
  - simpl. apply NoDup_singleton.
  - simpl. apply list_elem_of_here.
  - vm_compute. reflexivity.
Defined.

(** ** What acquiring and releasing never do *)


(** A synchronous client without a loop does get one when a connection is
    started for it. *)
Lemma sync_acquisition_builds_loop :
  client_loop (client Examples.sync_world) = mkLoopState None true 0
  ∧ client_loop
      (client (fst (get_or_create_connection Examples.first_pick 0%nat ObjClient
                      Examples.sync_world)))
    = mkLoopState (Some (own_loop 0)) true 1.
Proof. split; reflexivity. Qed.

(** X27: [release_connection] never closes, creates or changes a
    connection and makes no call on a transport: the connections, the
    consumers and the calls recorded are the same after it, also for a
    connection it drops from the pool and when it raises. *)
Theorem release_leaves_connections
        (can_reuse_connection : Connection -> option Consumer -> bool)
        (p : pool_id) (c : conn_id) (response : option consumer_id) (w : World) :
  conns (fst (release_connection can_reuse_connection p c response w)) = conns w
  ∧ consumers (fst (release_connection can_reuse_connection p c response w))
    = consumers w
  ∧ trace (fst (release_connection can_reuse_connection p c response w)) = trace w.
Proof.
  set (F := fun w' : World =>
              conns w' = conns w ∧ consumers w' = consumers w ∧ trace w' = trace w).
  apply (wp_fst (release_connection can_reuse_connection p c response) F).
  assert (forall q f w1, F w1 -> wp (update_pool q f) (fun _ => F) (fun _ => F) w1)
    as Hupd by (intros; by apply wp_modify).
  assert (forall o w1, F w1 -> wp (_remove_self p o) (fun _ => F) (fun _ => F) w1)
    as Hrem.
  { intros o w1 H1. unfold _remove_self. apply wp_bind, wp_the_pool.
    destruct (pools w1 !! p); [|done]. destruct (_ && _); [|done].
    destruct o; [by apply wp_modify|done]. }
  unfold release_connection.
  apply wp_bind. eapply wp_mono; [by apply Hupd| |auto].
  intros ? w1 H1. apply wp_bind, wp_the_conn.
  destruct (conns w1 !! c) as [C|]; [|done].
  apply wp_bind. destruct (conn_producer C); [|done].
  apply wp_bind. unfold the_response. destruct response as [r|].
  - apply wp_bind, wp_the_consumer. destruct (consumers w1 !! r); [|done].
    apply wp_ret, wp_ret, wp_bind.
    destruct (can_reuse_connection _ _).
    + eapply wp_mono; [by apply Hupd| |auto]. intros ? w2 H2. by apply Hrem.
    + apply wp_ret. by apply Hrem.
  - apply wp_ret, wp_ret, wp_bind.
    destruct (can_reuse_connection _ _).
    + eapply wp_mono; [by apply Hupd| |auto]. intros ? w2 H2. by apply Hrem.
    + apply wp_ret. by apply Hrem.
Qed.
